(** * Hellas fraud-game simulation engine: equilibrium solver, seeded
    simulation and attack evaluator ([webapp/src/lib/simulation.ts]).

    A JavaScript [number] is an IEEE-754 binary64 value, so the engine is
    embedded over Rocq's primitive [float] (binary64, round to nearest even):
    [+ - * /], [Math.sqrt] and the comparisons are the very operations the
    program executes, and every definition below evaluates.

    The two loop bounds, [nPeriods] and [nJobsPerPeriod], are iteration
    counts and are taken in [nat].  The integer-valued counters ([t],
    [totalJobs], [periodFrauds], ...) are kept in [Z] and converted with
    [Z2F] where the program uses them as numbers; a JavaScript counter
    incremented from [0] holds exactly that integer as long as it stays
    below [2^53], and past [2^53] the program's [for] loops no longer
    terminate.  [Math.exp] is not an IEEE operation and is a parameter of the
    simulation.  The properties of [float] operations are proved from the
    specification of binary64 in [SpecFloat] ([Prim2SF] and the [_spec]
    equations of [FloatAxioms]). *)

From Stdlib Require Import String.
From Stdlib Require Import ZArith List Bool Lia.
From Stdlib Require Import Floats.
From Stdlib Require Uint63 Zpower.
Import ListNotations.

Set Warnings "-inexact-float".
#[local] Open Scope float_scope.

(** ** JavaScript number helpers *)

(** [a >= b] and [a > b] on numbers (false as soon as one side is NaN). *)
Definition geb (a b : float) : bool := (b <=? a).
Definition gtb (a b : float) : bool := (b <? a).

(** [Math.max(x, y)]: NaN if either argument is NaN, and [+0] above [-0]. *)
Definition Math_max (x y : float) : float :=
  if is_nan x || is_nan y then nan
  else if x <? y then y
  else if y <? x then x
  else if get_sign x then y else x.

(** [Math.min(x, y)]: NaN if either argument is NaN, and [-0] below [+0]. *)
Definition Math_min (x y : float) : float :=
  if is_nan x || is_nan y then nan
  else if x <? y then x
  else if y <? x then y
  else if get_sign x then x else y.

(** The integer part of a number (toward zero); [0] for NaN and infinities. *)
Definition truncZ (x : float) : Z :=
  match Prim2SF x with
  | S754_finite s m e =>
      let a := match e with
               | Zneg k => Z.shiftr (Zpos m) (Zpos k)
               | _ => Z.shiftl (Zpos m) e
               end in
      if s then Z.opp a else a
  | _ => 0%Z
  end.

(** ECMAScript [ToInt32]: the integer part modulo [2^32], read as a signed
    32-bit integer. *)
Definition ToInt32 (x : float) : Z :=
  let n := (truncZ x mod 4294967296)%Z in
  if (2147483648 <=? n)%Z then (n - 4294967296)%Z else n.

(** An integer of magnitude below [2^63] read as a number (exact up to
    [2^53], rounded to nearest above). *)
Definition Z2F (z : Z) : float :=
  if (z <? 0)%Z then - of_uint63 (Uint63.of_Z (- z)) else of_uint63 (Uint63.of_Z z).

(** [x & y] on numbers. *)
Definition bitand (x y : float) : float :=
  Z2F (Z.land (ToInt32 x) (ToInt32 y)).

(** ** Readings of a number's IEEE class, on its [spec_float] image *)

Definition SFis_nan (x : spec_float) : bool :=
  match x with S754_nan => true | _ => false end.

(** Zero or a finite non-zero value. *)
Definition SFfinite (x : spec_float) : bool :=
  match x with
  | S754_zero _ | S754_finite _ _ _ => true
  | _ => false
  end.

(** A finite number other than zero. *)
Definition finite_nonzero (x : float) : bool := is_finite x && negb (x =? 0).

(** Zero of either sign, or a positive finite or infinite value. *)
Definition SFnonneg (x : spec_float) : bool :=
  match x with
  | S754_zero _ => true
  | S754_infinity s | S754_finite s _ _ => negb s
  | S754_nan => false
  end.

(** ** Data model *)

Record ProtocolParams := mkParams {
  S_P : float;      (* Provider stake *)
  P_set : float;    (* Settlement payment *)
  c_H : float;      (* Honest execution cost *)
  c_F : float;      (* Cheating cost *)
  C_safe : float;   (* Safe fallback cost *)
  c_proof : float;  (* Proof generation cost *)
  c_tx : float;     (* Transaction cost *)
  beta : float;     (* Slash reward fraction *)
  lambda : float;   (* Payment routing fraction *)
  p_w : float;      (* Enforcement probability *)
  B_C : float;      (* Challenge bond *)
  L : float;        (* Client loss from incorrect result *)
  v_min : float     (* Minimum audit probability *)
}.

Record EquilibriumValues := mkEq {
  v_star : float;
  q_star : float;
  theta : float;
  Delta : float;
  S_P_min : float;
  mu_star : float;
  isEnforcementViable : bool;
  isICsatisfied : bool;
  expectedProviderUtility : float;
  expectedClientUtility : float
}.

Record SimulationResult := mkResult {
  periods : list float;
  fraudRates : list float;
  detectionRates : list float;
  auditRates : list float;
  reputationHistory : list float;
  providerProfits : list float;
  clientLosses : list float;
  cumulativeWelfare : list float;
  totalJobs : Z;
  totalFrauds : Z;
  totalDetected : Z;
  finalFraudRate : float;
  finalDetectionRate : float;
  socialWelfare : float
}.

Definition DEFAULT_PARAMS : ProtocolParams :=
  {| S_P := 100; P_set := 50; c_H := 5.0; c_F := 0.5; C_safe := 8.0;
     c_proof := 2.0; c_tx := 1.0; beta := 0.5; lambda := 1.0; p_w := 0.95;
     B_C := 5.0; L := 50; v_min := 0.02 |}.

(** ** Equilibrium solver *)

Definition computeDelta (params : ProtocolParams) : float :=
  let '(mkParams S_P P_set _ _ _ c_proof c_tx beta lambda p_w B_C _ _) := params in
  p_w * (beta * S_P + lambda * P_set) - (c_proof + c_tx) - (1 - p_w) * B_C.

Definition computeTheta (params : ProtocolParams) : float :=
  let '(mkParams S_P P_set c_H c_F _ _ _ _ _ _ _ _ _) := params in
  (c_H - c_F) / (P_set + S_P).

Definition computeMinViableStake (params : ProtocolParams) : float :=
  let '(mkParams _ P_set _ _ C_safe c_proof c_tx beta lambda p_w B_C _ _) := params in
  let C_disp := C_safe + c_proof + c_tx in
  let numerator := C_disp + (1 - p_w) * B_C - p_w * lambda * P_set in
  let denominator := p_w * beta in
  Math_max 0 (numerator / denominator).

Definition computeVStar (params : ProtocolParams) : float :=
  computeTheta params.

Definition computeQStar (params : ProtocolParams) : float :=
  let Delta := computeDelta params in
  let C_safe := C_safe params in
  let L := L params in
  if L + Delta <=? 0 then 1.0
  else Math_min 1.0 (C_safe / (L + Delta)).

Definition computeEquilibrium (params : ProtocolParams) : EquilibriumValues :=
  let v_star := computeVStar params in
  let q_star := computeQStar params in
  let theta := computeTheta params in
  let Delta := computeDelta params in
  let S_P_min := computeMinViableStake params in
  let mu_star := q_star in
  let isEnforcementViable := geb (S_P params) S_P_min in
  let isICsatisfied := geb v_star theta in
  let expectedProviderUtility := P_set params - c_H params in
  let expectedClientUtility :=
    - P_set params
    - v_star * C_safe params
    - (1 - v_star) * q_star * L params
    + v_star * q_star * Delta in
  {| v_star := v_star; q_star := q_star; theta := theta; Delta := Delta;
     S_P_min := S_P_min; mu_star := mu_star;
     isEnforcementViable := isEnforcementViable;
     isICsatisfied := isICsatisfied;
     expectedProviderUtility := expectedProviderUtility;
     expectedClientUtility := expectedClientUtility |}.

(** ** Seeded generator *)

Record SeededRandom := mkRng { seed : float }.

(** [next()]: the new state and the value returned. *)
Definition next (r : SeededRandom) : float * SeededRandom :=
  let s := bitand (seed r * 1103515245 + 12345) 2147483647 in
  (s / 2147483647, mkRng s).

(** ** Simulation engine *)

(** The variables of [runSimulation] that live across periods. *)
Record SimState := mkSim {
  st_rng : SeededRandom;
  st_periods : list float;
  st_fraudRates : list float;
  st_detectionRates : list float;
  st_auditRates : list float;
  st_reputationHistory : list float;
  st_providerProfits : list float;
  st_clientLosses : list float;
  st_cumulativeWelfare : list float;
  st_totalJobs : Z;
  st_totalFrauds : Z;
  st_totalDetected : Z;
  st_avgReputation : float;
  st_cumProviderProfit : float;
  st_cumClientLoss : float;
  st_recentFraudRates : list float;
  st_adaptiveAuditProb : float
}.

(** The variables the inner job loop reads and writes: the generator, the
    run totals, the reputation, and the period's own accumulators. *)
Record JobState := mkJob {
  j_rng : SeededRandom;
  j_totalJobs : Z;
  j_totalFrauds : Z;
  j_totalDetected : Z;
  j_avgReputation : float;
  periodFrauds : Z;
  periodDetected : Z;
  periodProviderProfit : float;
  periodClientLoss : float;
  periodAudits : Z
}.

(** [n] rounds of a loop body. *)
Fixpoint repeat_loop {A : Type} (body : A -> A) (n : nat) (a : A) : A :=
  match n with
  | O => a
  | S k => repeat_loop body k (body a)
  end.

(** A [for (let t = 0; t < n; t++)] loop whose body reads [t]. *)
Fixpoint for_loop {A : Type} (body : Z -> A -> A) (t : Z) (n : nat) (a : A) : A :=
  match n with
  | O => a
  | S k => for_loop body (t + 1)%Z k (body t a)
  end.

Definition recentWindowSize : nat := 5.
Definition learningRate : float := 0.3.

Section Simulation.

(** [Math.exp]. *)
Variable Math_exp : float -> float.

Variable params : ProtocolParams.
Variable nJobsPerPeriod : nat.
Variable honestFraction : float.

(** The provider's decision for a non-honest type: whether it cheats, and
    the generator after the draw (if any). *)
Definition decideCheat (eq : EquilibriumValues) (adaptiveAuditProb avgReputation : float)
    (rng : SeededRandom) : bool * SeededRandom :=
  let reputationFactor := Math_exp (-0.01 * (avgReputation - 50)) in
  let estimatedAuditProb := adaptiveAuditProb * reputationFactor in
  let U_honest := P_set params - c_H params in
  let U_cheat := P_set params - c_F params - estimatedAuditProb * (P_set params + S_P params) in
  let utilityDiff := U_cheat - U_honest in
  if gtb utilityDiff 1 then
    let (u, rng) := next rng in (gtb u 0.2, rng)
  else if gtb utilityDiff (-1) then
    let (u, rng) := next rng in (u <? q_star eq, rng)
  else (false, rng).

(** One iteration of the inner [for (let j = 0; j < nJobsPerPeriod; j++)]. *)
Definition jobStep (eq : EquilibriumValues) (adaptiveAuditProb : float) (s : JobState) : JobState :=
  let totalJobs := (j_totalJobs s + 1)%Z in
  let (u, rng) := next (j_rng s) in
  let isHonestType := u <? honestFraction in
  let '(cheats, rng) :=
    if negb isHonestType then decideCheat eq adaptiveAuditProb (j_avgReputation s) rng
    else (false, rng) in
  if cheats then
    let totalFrauds := (j_totalFrauds s + 1)%Z in
    let periodFrauds := (periodFrauds s + 1)%Z in
    let effectiveAuditProb := Math_max (v_min params) adaptiveAuditProb in
    let (u, rng) := next rng in
    let audits := u <? effectiveAuditProb in
    if audits then
      let totalDetected := (j_totalDetected s + 1)%Z in
      let periodDetected := (periodDetected s + 1)%Z in
      let periodAudits := (periodAudits s + 1)%Z in
      let (u, rng) := next rng in
      if u <? p_w params then
        let reward := beta params * S_P params + lambda params * P_set params in
        mkJob rng totalJobs totalFrauds totalDetected
          (Math_max 0 (j_avgReputation s - 5))
          periodFrauds periodDetected
          (periodProviderProfit s - S_P params)
          (periodClientLoss s - (reward - C_safe params - c_proof params - c_tx params))
          periodAudits
      else
        mkJob rng totalJobs totalFrauds totalDetected (j_avgReputation s)
          periodFrauds periodDetected
          (periodProviderProfit s)
          (periodClientLoss s + (C_safe params + B_C params))
          periodAudits
    else
      mkJob rng totalJobs totalFrauds (j_totalDetected s) (j_avgReputation s)
        periodFrauds (periodDetected s)
        (periodProviderProfit s + (P_set params - c_F params))
        (periodClientLoss s + L params)
        (periodAudits s)
  else
    mkJob rng totalJobs (j_totalFrauds s) (j_totalDetected s)
      (Math_min 100 (j_avgReputation s + 0.1))
      (periodFrauds s) (periodDetected s)
      (periodProviderProfit s + (P_set params - c_H params))
      (periodClientLoss s)
      (periodAudits s).

(** [recentFraudRates.push(r)] followed by the [shift()] that keeps the
    window at [recentWindowSize] entries. *)
Definition pushRecent (recent : list float) (r : float) : list float :=
  let recent := recent ++ [r] in
  if (recentWindowSize <? length recent)%nat then tl recent else recent.

(** [xs.reduce((a, b) => a + b, 0)]. *)
Definition sum (xs : list float) : float := fold_left add xs 0.

(** One iteration of the outer [for (let t = 0; t < nPeriods; t++)]. *)
Definition periodStep (eq : EquilibriumValues) (t : Z) (s : SimState) : SimState :=
  let j0 := mkJob (st_rng s) (st_totalJobs s) (st_totalFrauds s) (st_totalDetected s)
              (st_avgReputation s) 0 0 0 0 0 in
  let j := repeat_loop (jobStep eq (st_adaptiveAuditProb s)) nJobsPerPeriod j0 in
  let periodFraudRate := Z2F (periodFrauds j) / Z2F (Z.of_nat nJobsPerPeriod) in
  let recentFraudRates := pushRecent (st_recentFraudRates s) periodFraudRate in
  let observedFraudRate := sum recentFraudRates / Z2F (Z.of_nat (length recentFraudRates)) in
  let fraudRatio := if gtb (q_star eq) 0 then observedFraudRate / q_star eq else 1 in
  let targetAuditProb := v_star eq * sqrt fraudRatio in
  let adaptiveAuditProb :=
    st_adaptiveAuditProb s + learningRate * (targetAuditProb - st_adaptiveAuditProb s) in
  let adaptiveAuditProb := Math_max (v_min params) (Math_min 1.0 adaptiveAuditProb) in
  let cumProviderProfit := st_cumProviderProfit s + periodProviderProfit j in
  let cumClientLoss := st_cumClientLoss s + periodClientLoss j in
  let detectionRate :=
    if (0 <? periodFrauds j)%Z then Z2F (periodDetected j) / Z2F (periodFrauds j)
    else if (0 <? t)%Z then nth (Z.to_nat (t - 1)) (st_detectionRates s) nan
    else v_star eq in
  {| st_rng := j_rng j;
     st_periods := st_periods s ++ [Z2F t];
     st_fraudRates := st_fraudRates s ++ [periodFraudRate];
     st_detectionRates := st_detectionRates s ++ [detectionRate];
     st_auditRates := st_auditRates s ++ [adaptiveAuditProb];
     st_reputationHistory := st_reputationHistory s ++ [j_avgReputation j];
     st_providerProfits := st_providerProfits s ++ [cumProviderProfit];
     st_clientLosses := st_clientLosses s ++ [cumClientLoss];
     st_cumulativeWelfare := st_cumulativeWelfare s ++ [cumProviderProfit - cumClientLoss];
     st_totalJobs := j_totalJobs j;
     st_totalFrauds := j_totalFrauds j;
     st_totalDetected := j_totalDetected j;
     st_avgReputation := j_avgReputation j;
     st_cumProviderProfit := cumProviderProfit;
     st_cumClientLoss := cumClientLoss;
     st_recentFraudRates := recentFraudRates;
     st_adaptiveAuditProb := adaptiveAuditProb |}.

(** The state before the first period. *)
Definition initState (eq : EquilibriumValues) (seed : float) : SimState :=
  {| st_rng := mkRng seed;
     st_periods := []; st_fraudRates := []; st_detectionRates := [];
     st_auditRates := []; st_reputationHistory := []; st_providerProfits := [];
     st_clientLosses := []; st_cumulativeWelfare := [];
     st_totalJobs := 0; st_totalFrauds := 0; st_totalDetected := 0;
     st_avgReputation := 50; st_cumProviderProfit := 0; st_cumClientLoss := 0;
     st_recentFraudRates := [];
     st_adaptiveAuditProb := v_star eq |}.

(** The object [runSimulation] returns, built from the final state. *)
Definition resultOf (eq : EquilibriumValues) (s : SimState) : SimulationResult :=
  {| periods := st_periods s;
     fraudRates := st_fraudRates s;
     detectionRates := st_detectionRates s;
     auditRates := st_auditRates s;
     reputationHistory := st_reputationHistory s;
     providerProfits := st_providerProfits s;
     clientLosses := st_clientLosses s;
     cumulativeWelfare := st_cumulativeWelfare s;
     totalJobs := st_totalJobs s;
     totalFrauds := st_totalFrauds s;
     totalDetected := st_totalDetected s;
     finalFraudRate := Z2F (st_totalFrauds s) / Z2F (st_totalJobs s);
     finalDetectionRate :=
       if (0 <? st_totalFrauds s)%Z then Z2F (st_totalDetected s) / Z2F (st_totalFrauds s)
       else v_star eq;
     socialWelfare := st_cumProviderProfit s - st_cumClientLoss s |}.

End Simulation.

Definition runSimulation (Math_exp : float -> float) (params : ProtocolParams)
    (nPeriods nJobsPerPeriod : nat) (honestFraction seed : float) : SimulationResult :=
  let eq := computeEquilibrium params in
  resultOf eq
    (for_loop (periodStep Math_exp params nJobsPerPeriod honestFraction eq) 0 nPeriods
       (initState eq seed)).

(** ** Sensitivity analysis *)

(** [keyof ProtocolParams]. *)
Inductive ParamName :=
  | k_S_P | k_P_set | k_c_H | k_c_F | k_C_safe | k_c_proof | k_c_tx
  | k_beta | k_lambda | k_p_w | k_B_C | k_L | k_v_min.

(** [{ ...p, [k]: v }]: a fresh record, equal to [p] but for field [k]. *)
Definition setParam (p : ProtocolParams) (k : ParamName) (v : float) : ProtocolParams :=
  let '(mkParams sp ps ch cf cs cp ct b l pw bc ll vm) := p in
  match k with
  | k_S_P => mkParams v ps ch cf cs cp ct b l pw bc ll vm
  | k_P_set => mkParams sp v ch cf cs cp ct b l pw bc ll vm
  | k_c_H => mkParams sp ps v cf cs cp ct b l pw bc ll vm
  | k_c_F => mkParams sp ps ch v cs cp ct b l pw bc ll vm
  | k_C_safe => mkParams sp ps ch cf v cp ct b l pw bc ll vm
  | k_c_proof => mkParams sp ps ch cf cs v ct b l pw bc ll vm
  | k_c_tx => mkParams sp ps ch cf cs cp v b l pw bc ll vm
  | k_beta => mkParams sp ps ch cf cs cp ct v l pw bc ll vm
  | k_lambda => mkParams sp ps ch cf cs cp ct b v pw bc ll vm
  | k_p_w => mkParams sp ps ch cf cs cp ct b l v bc ll vm
  | k_B_C => mkParams sp ps ch cf cs cp ct b l pw v ll vm
  | k_L => mkParams sp ps ch cf cs cp ct b l pw bc v vm
  | k_v_min => mkParams sp ps ch cf cs cp ct b l pw bc ll v
  end.

(** The field a [ParamName] names. *)
Definition getParam (p : ProtocolParams) (k : ParamName) : float :=
  match k with
  | k_S_P => S_P p | k_P_set => P_set p | k_c_H => c_H p | k_c_F => c_F p
  | k_C_safe => C_safe p | k_c_proof => c_proof p | k_c_tx => c_tx p
  | k_beta => beta p | k_lambda => lambda p | k_p_w => p_w p | k_B_C => B_C p
  | k_L => L p | k_v_min => v_min p
  end.

Module Sens.

(** The object [sensitivityAnalysis] returns. *)
Record Result := mk {
  values : list float;
  q_star : list float;
  v_star : list float;
  Delta : list float;
  S_P_min : list float
}.

End Sens.

(** The bindings the loop of [sensitivityAnalysis] runs in: the caller's
    [baseParams] object and the [results] object under construction. *)
Record SensEnv := mkSensEnv {
  env_baseParams : ProtocolParams;
  env_results : Sens.Result
}.

(** The body of [for (const value of values)]. *)
Definition sensStep (paramName : ParamName) (env : SensEnv) (value : float) : SensEnv :=
  let params := setParam (env_baseParams env) paramName value in
  let eq := computeEquilibrium params in
  let results := env_results env in
  {| env_baseParams := env_baseParams env;
     env_results :=
       {| Sens.values := Sens.values results;
          Sens.q_star := Sens.q_star results ++ [q_star eq];
          Sens.v_star := Sens.v_star results ++ [v_star eq];
          Sens.Delta := Sens.Delta results ++ [Delta eq];
          Sens.S_P_min := Sens.S_P_min results ++ [S_P_min eq] |} |}.

(** The environment when [sensitivityAnalysis] returns: its [env_results]
    is the value returned, its [env_baseParams] the caller's object as the
    call leaves it. *)
Definition sensitivityLoop (baseParams : ProtocolParams) (paramName : ParamName)
    (values : list float) : SensEnv :=
  fold_left (sensStep paramName) values
    {| env_baseParams := baseParams;
       env_results := Sens.mk values [] [] [] [] |}.

Definition sensitivityAnalysis (baseParams : ProtocolParams) (paramName : ParamName)
    (values : list float) : Sens.Result :=
  env_results (sensitivityLoop baseParams paramName values).

(** ** Attack evaluator *)

Inductive AttackType :=
  | reputation_farming | no_stake_floor | sybil | collusion | censorship.

Inductive Severity := low | medium | high | critical.

Record AttackResult := mkAttack {
  name : String.string;
  description : String.string;
  baselineFraudRate : float;
  attackFraudRate : float;
  fraudRateChange : float;
  welfareLoss : float;
  attackerProfit : float;
  severity : Severity
}.

(** The [switch (attackType)]: name, description, perturbed parameters and
    honest fraction. *)
Definition attackScenario (params : ProtocolParams) (attackType : AttackType)
    : String.string * String.string * ProtocolParams * float :=
  match attackType with
  | reputation_farming =>
      ("Reputation Farming"%string,
       "Attacker builds reputation with honest behavior, then exploits reduced auditing"%string,
       params, 0.4)
  | no_stake_floor =>
      ("No Stake Floor"%string,
       "Minimal stake when floor not enforced, reducing slashing penalty"%string,
       setParam params k_S_P 5, 0.6)
  | sybil =>
      ("Sybil Attack"%string,
       "Multiple identities spread risk and dilute reputation penalties"%string,
       params, 0.3)
  | collusion =>
      ("Collusion"%string,
       "Provider-client coordination to avoid auditing"%string,
       setParam params k_C_safe (C_safe params * 2), 0.4)
  | censorship =>
      ("Censorship Attack"%string,
       "Blocking dispute transactions reduces enforcement probability"%string,
       setParam params k_p_w (p_w params * 0.7), 0.6)
  end.

(** The [if / else if] chain that grades [welfareLoss]. *)
Definition classifySeverity (welfareLoss : float) : Severity :=
  if gtb welfareLoss 5000 then critical
  else if gtb welfareLoss 2000 then high
  else if gtb welfareLoss 500 then medium
  else low.

Definition simulateAttack (Math_exp : float -> float) (params : ProtocolParams)
    (attackType : AttackType) (nPeriods : nat) : AttackResult :=
  let baselineResult := runSimulation Math_exp params nPeriods 20 0.6 42 in
  let '(name, description, attackParams, attackHonestFraction) :=
    attackScenario params attackType in
  let attackResult :=
    runSimulation Math_exp attackParams nPeriods 20 attackHonestFraction 43 in
  let fraudRateChange := finalFraudRate attackResult - finalFraudRate baselineResult in
  let welfareLoss := socialWelfare baselineResult - socialWelfare attackResult in
  let severity := classifySeverity welfareLoss in
  {| name := name;
     description := description;
     baselineFraudRate := finalFraudRate baselineResult;
     attackFraudRate := finalFraudRate attackResult;
     fraudRateChange := fraudRateChange;
     welfareLoss := welfareLoss;
     attackerProfit := welfareLoss * 0.4;
     severity := severity |}.

(** ** Invariants and the concrete inputs used below *)

(** Every series has one entry per completed period, and the welfare
    series is the difference of the two money series. *)
Definition series_inv (n : nat) (s : SimState) : Prop :=
  length (st_periods s) = n /\
  length (st_fraudRates s) = n /\
  length (st_detectionRates s) = n /\
  length (st_auditRates s) = n /\
  length (st_reputationHistory s) = n /\
  length (st_providerProfits s) = n /\
  length (st_clientLosses s) = n /\
  length (st_cumulativeWelfare s) = n /\
  forall (i : nat) (d : float), (i < n)%nat ->
    nth i (st_cumulativeWelfare s) d
    = nth i (st_providerProfits s) d - nth i (st_clientLosses s) d.

(** Default parameters with stake 1 and no settlement payment. *)
Definition stake_below_floor : ProtocolParams :=
  setParam (setParam DEFAULT_PARAMS k_S_P 1) k_P_set 0.

(** No stake, no payment, and honesty cheaper than cheating. *)
Definition zero_denominator_cheaper_honesty : ProtocolParams :=
  setParam (setParam (setParam (setParam DEFAULT_PARAMS k_S_P 0) k_P_set 0) k_c_H 0.5) k_c_F 5.

(** No stake, no payment, and equal costs. *)
Definition zero_denominator_equal_costs : ProtocolParams :=
  setParam (setParam (setParam DEFAULT_PARAMS k_S_P 0) k_P_set 0) k_c_F 5.

(** No stake and no payment, other fields at their defaults. *)
Definition zero_denominator : ProtocolParams :=
  setParam (setParam DEFAULT_PARAMS k_S_P 0) k_P_set 0.

(** Membership in the unit interval [[0, 1]]. *)
Definition in_unit (x : float) : bool := (0 <=? x) && (x <=? 1).

(** Every field name. *)
Definition all_params : list ParamName :=
  [k_S_P; k_P_set; k_c_H; k_c_F; k_C_safe; k_c_proof; k_c_tx; k_beta; k_lambda;
   k_p_w; k_B_C; k_L; k_v_min].

(** All thirteen fields are at least zero. *)
Definition nonneg_fields (p : ProtocolParams) : bool :=
  forallb (fun k => 0 <=? getParam p k) all_params.

(** Default parameters with an honest execution cost of 500. *)
Definition high_honest_cost : ProtocolParams := setParam DEFAULT_PARAMS k_c_H 500.

(** Default parameters with honesty cheaper than cheating. *)
Definition cheaper_honesty : ProtocolParams :=
  setParam (setParam DEFAULT_PARAMS k_c_H 0.5) k_c_F 5.

(** Default parameters with an infinite fallback cost and client loss. *)
Definition infinite_costs : ProtocolParams :=
  setParam (setParam DEFAULT_PARAMS k_C_safe infinity) k_L infinity.

(** A number whose fractional bits are all zero. *)
Definition is_integer (x : float) : bool :=
  match Prim2SF x with
  | S754_zero _ => true
  | S754_finite _ m e => (0 <=? e)%Z || (Z.land (Zpos m) (Z.ones (- e)) =? 0)%Z
  | _ => false
  end.

(** The inputs of [runSimulation] that claim C4 ranges over. *)
Definition simulation_inputs (params : ProtocolParams) (nPeriods nJobsPerPeriod : nat)
    (honestFraction seed : float) : Prop :=
  nonneg_fields params = true /\
  in_unit (p_w params) = true /\ in_unit (beta params) = true /\
  in_unit (lambda params) = true /\ in_unit (v_min params) = true /\
  (1 <= nPeriods)%nat /\ (1 <= nJobsPerPeriod)%nat /\
  in_unit honestFraction = true /\ is_integer seed = true.

(** An audit rate after clamping: in [[v_min, 1]], unless it is NaN. *)
Definition clamped (v_min x : float) : Prop :=
  is_nan x = true \/ ((v_min <=? x) = true /\ in_unit x = true).

(** The detection rates: each is in the unit interval, or is the carried
    equilibrium value [v] in a period up to which every fraud rate is zero. *)
Definition detection_inv (v : float) (frauds detections : list float) : Prop :=
  forall (i : nat) (x : float), nth_error detections i = Some x ->
    in_unit x = true \/
    (x = v /\ Forall (fun f => f = 0) (firstn (S i) frauds)).

(** An audit rate within its floor and ceiling. *)
Definition within_floor (v_min x : float) : Prop :=
  (v_min <=? x) = true /\ in_unit x = true.

(** What holds of the adaptive audit state before each period when
    [v_star] is finite and not zero. *)
Definition audit_inv (params : ProtocolParams) (s : SimState) : Prop :=
  is_finite (st_adaptiveAuditProb s) = true /\
  Forall (fun f => (0 <=? f) = true) (st_recentFraudRates s) /\
  Forall (within_floor (v_min params)) (st_auditRates s).

(** The period's counters after [k] jobs. *)
Definition counts_inv (k : nat) (s : JobState) : Prop :=
  (0 <= periodDetected s <= periodFrauds s)%Z /\ (periodFrauds s <= Z.of_nat k)%Z.

(** What holds of the three rate series before period [t]. *)
Definition rates_inv (params : ProtocolParams) (eq : EquilibriumValues) (t : Z) (s : SimState) : Prop :=
  (0 <= t)%Z /\
  length (st_fraudRates s) = Z.to_nat t /\
  length (st_detectionRates s) = Z.to_nat t /\
  Forall (fun x => in_unit x = true) (st_fraudRates s) /\
  detection_inv (v_star eq) (st_fraudRates s) (st_detectionRates s) /\
  Forall (clamped (v_min params)) (st_auditRates s).

(** * Properties *)

(** ** Loops *)

Lemma repeat_loop_invariant {A : Type} (P : nat -> A -> Prop) (body : A -> A) :
  (forall k a, P k a -> P (S k) (body a)) ->
  forall n k a, P k a -> P (k + n)%nat (repeat_loop body n a).
Proof.
  intros Hstep n; induction n as [|n IH]; intros k a Ha; simpl.
  - now rewrite Nat.add_0_r.
  - replace (k + S n)%nat with (S k + n)%nat by lia. apply IH, Hstep, Ha.
Qed.

Lemma for_loop_invariant {A : Type} (P : Z -> A -> Prop) (body : Z -> A -> A) :
  (forall t a, P t a -> P (t + 1)%Z (body t a)) ->
  forall n t a, P t a -> P (t + Z.of_nat n)%Z (for_loop body t n a).
Proof.
  intros Hstep n; induction n as [|n IH]; intros t a Ha; simpl for_loop.
  - now rewrite Z.add_0_r.
  - replace (t + Z.of_nat (S n))%Z with (t + 1 + Z.of_nat n)%Z by lia.
    apply IH, Hstep, Ha.
Qed.

(** The last round of a non-empty [for] loop, peeled off. *)
Lemma for_loop_last {A : Type} (body : Z -> A -> A) :
  forall n t a,
    for_loop body t (S n) a = body (t + Z.of_nat n)%Z (for_loop body t n a).
Proof.
  induction n as [|n IH]; intros t a.
  - simpl. now rewrite Z.add_0_r.
  - change (for_loop body t (S (S n)) a) with (for_loop body (t + 1)%Z (S n) (body t a)).
    rewrite IH. simpl for_loop.
    replace (t + 1 + Z.of_nat n)%Z with (t + Z.of_nat (S n))%Z by lia. reflexivity.
Qed.

(** ** Order facts on binary64 numbers

    Comparisons of numbers are those of their [spec_float] images; NaN
    compares false with everything. *)

Lemma SFcompare_antisym (x y : spec_float) :
  SFcompare y x = option_map CompOpp (SFcompare x y).
Proof.
  destruct x as [sx|sx| |sx mx ex], y as [sy|sy| |sy my ey]; simpl;
    try reflexivity; try (destruct sx; reflexivity); try (destruct sy; reflexivity);
    try (destruct sx, sy; reflexivity).
  change (Pos.compare_cont Eq my mx) with (my ?= mx)%positive.
  change (Pos.compare_cont Eq mx my) with (mx ?= my)%positive.
  rewrite (Z.compare_antisym ex ey), (Pos.compare_antisym mx my).
  destruct sx, sy, (ex ?= ey)%Z, (mx ?= my)%positive; reflexivity.
Qed.

Lemma SFcompare_refl (x : spec_float) :
  SFcompare x x = match x with S754_nan => None | _ => Some Eq end.
Proof.
  destruct x as [s|s| |s m e]; simpl; try (destruct s; reflexivity); try reflexivity.
  change (Pos.compare_cont Eq m m) with (m ?= m)%positive.
  rewrite Z.compare_refl, Pos.compare_refl. destruct s; reflexivity.
Qed.

Lemma is_nan_spec (x : float) : is_nan x = SFis_nan (Prim2SF x).
Proof.
  unfold is_nan. rewrite eqb_spec. unfold SFeqb. rewrite SFcompare_refl.
  destruct (Prim2SF x); reflexivity.
Qed.

Lemma geb_self (x : float) : (x <=? x) = negb (is_nan x).
Proof.
  rewrite is_nan_spec, leb_spec. unfold SFleb. rewrite SFcompare_refl.
  destruct (Prim2SF x); reflexivity.
Qed.

Lemma ltb_leb (x y : float) : (x <? y) = true -> (x <=? y) = true.
Proof.
  rewrite ltb_spec, leb_spec. unfold SFltb, SFleb.
  destruct (SFcompare _ _) as [[]|]; easy.
Qed.

Lemma leb_not_nan (x y : float) :
  (x <=? y) = true -> is_nan x = false /\ is_nan y = false.
Proof.
  rewrite leb_spec, !is_nan_spec. unfold SFleb.
  destruct (Prim2SF x), (Prim2SF y); simpl; try discriminate; auto.
Qed.

Lemma ltb_not_nan (x y : float) :
  (x <? y) = true -> is_nan x = false /\ is_nan y = false.
Proof. intros H. apply leb_not_nan, ltb_leb, H. Qed.

Lemma not_ltb_leb (x y : float) :
  is_nan x = false -> is_nan y = false -> (y <? x) = false -> (x <=? y) = true.
Proof.
  rewrite ltb_spec, leb_spec, !is_nan_spec. unfold SFltb, SFleb.
  rewrite (SFcompare_antisym (Prim2SF x) (Prim2SF y)).
  destruct (Prim2SF x) as [sx|sx| |sx mx ex], (Prim2SF y) as [sy|sy| |sy my ey];
    try discriminate; intros _ _;
    destruct (SFcompare _ _) as [[]|] eqn:E; simpl; try easy; simpl in E;
    try discriminate; destruct sx; try destruct sy; discriminate.
Qed.

Lemma leb_ltb_false (x y : float) : (x <=? y) = true -> (y <? x) = false.
Proof.
  rewrite ltb_spec, leb_spec. unfold SFltb, SFleb.
  rewrite (SFcompare_antisym (Prim2SF x) (Prim2SF y)).
  destruct (SFcompare _ _) as [[]|]; simpl; easy.
Qed.

Lemma leb_zero_spec (x : float) : (0 <=? x) = SFnonneg (Prim2SF x).
Proof.
  rewrite leb_spec. change (Prim2SF 0) with (S754_zero false).
  destruct (Prim2SF x) as [s|s| |s m e]; simpl; try reflexivity; destruct s; reflexivity.
Qed.

Lemma nonneg_leb (x y : float) :
  (0 <=? x) = true -> (x <=? y) = true -> (0 <=? y) = true.
Proof.
  rewrite !leb_zero_spec, leb_spec. unfold SFleb.
  destruct (Prim2SF x) as [sx|sx| |sx mx ex], (Prim2SF y) as [sy|sy| |sy my ey];
    simpl; try easy; try (destruct sx, sy; simpl; easy); try (destruct sy; simpl; easy).
Qed.

Lemma SFltb_trans (x y z : spec_float) :
  SFltb x y = true -> SFltb y z = true -> SFltb x z = true.
Proof.
  unfold SFltb.
  destruct x as [sx|sx| |sx mx ex], y as [sy|sy| |sy my ey], z as [sz|sz| |sz mz ez];
    simpl; try discriminate; try reflexivity;
    try (destruct sx; simpl; try discriminate; try reflexivity);
    try (destruct sy; simpl; try discriminate; try reflexivity);
    try (destruct sz; simpl; try discriminate; try reflexivity).
  all: change (Pos.compare_cont Eq) with Pos.compare.
  all: destruct (Z.compare_spec ex ey), (Z.compare_spec ey ez); try discriminate;
       destruct (Z.compare_spec ex ez); try lia; try reflexivity; try discriminate.
  all: destruct (Pos.compare_spec mx my), (Pos.compare_spec my mz); simpl; try discriminate;
       destruct (Pos.compare_spec mx mz); simpl; try lia; try reflexivity; try discriminate.
Qed.

Lemma ltb_trans (x y z : float) :
  (x <? y) = true -> (y <? z) = true -> (x <? z) = true.
Proof. rewrite !ltb_spec. apply SFltb_trans. Qed.

Lemma SFmul_comm (x y : spec_float) : SF64mul x y = SF64mul y x.
Proof.
  unfold SF64mul.
  destruct x as [sx|sx| |sx mx ex], y as [sy|sy| |sy my ey]; simpl;
    rewrite ?(xorb_comm sx sy); try reflexivity.
  now rewrite (Pos.mul_comm mx my), (Z.add_comm ex ey).
Qed.

Lemma mul_comm (x y : float) : x * y = y * x.
Proof. apply Prim2SF_inj. rewrite !mul_spec. apply SFmul_comm. Qed.

Lemma ltb_zero_spec (x : float) :
  (0 <? x) = match Prim2SF x with
             | S754_infinity s | S754_finite s _ _ => negb s
             | _ => false
             end.
Proof.
  rewrite ltb_spec. change (Prim2SF 0) with (S754_zero false).
  destruct (Prim2SF x) as [s|s| |s m e]; simpl; try reflexivity; destruct s; reflexivity.
Qed.

Lemma ltb_zero_r_spec (x : float) :
  (x <? 0) = match Prim2SF x with
             | S754_infinity s | S754_finite s _ _ => s
             | _ => false
             end.
Proof.
  rewrite ltb_spec. change (Prim2SF 0) with (S754_zero false).
  destruct (Prim2SF x) as [s|s| |s m e]; simpl; try reflexivity; destruct s; reflexivity.
Qed.

Lemma eqb_zero_spec (x : float) :
  (x =? 0) = match Prim2SF x with S754_zero _ => true | _ => false end.
Proof.
  rewrite eqb_spec. change (Prim2SF 0) with (S754_zero false).
  destruct (Prim2SF x) as [s|s| |s m e]; simpl; try reflexivity; destruct s; reflexivity.
Qed.

Lemma zero_cases (x : float) : (x =? 0) = true -> x = 0 \/ x = -0.
Proof.
  rewrite eqb_zero_spec. intros H. rewrite <- (SF2Prim_Prim2SF x).
  destruct (Prim2SF x) as [[|]| | |]; try discriminate; [right|left]; reflexivity.
Qed.

Lemma div_by_zero (n d : float) :
  (d =? 0) = true ->
  (is_nan n || (n =? 0) = true -> n / d = nan) /\
  ((0 <? n) = true -> (d = 0 /\ n / d = infinity) \/ (d = -0 /\ n / d = neg_infinity)) /\
  ((n <? 0) = true -> (d = 0 /\ n / d = neg_infinity) \/ (d = -0 /\ n / d = infinity)).
Proof.
  intros Hd. pose proof (zero_cases d Hd) as Hc.
  assert (E : Prim2SF (n / d) = SF64div (Prim2SF n) (Prim2SF d)) by apply div_spec.
  rewrite is_nan_spec, eqb_zero_spec, ltb_zero_spec, ltb_zero_r_spec.
  repeat split.
  - intros H. apply Prim2SF_inj. rewrite E.
    destruct Hc as [-> | ->]; destruct (Prim2SF n); try discriminate; reflexivity.
  - intros H.
    destruct Hc as [-> | ->]; [left|right]; split; trivial; apply Prim2SF_inj; rewrite E;
      destruct (Prim2SF n) as [s|[|]| |[|] m e]; try discriminate; reflexivity.
  - intros H.
    destruct Hc as [-> | ->]; [left|right]; split; trivial; apply Prim2SF_inj; rewrite E;
      destruct (Prim2SF n) as [s|[|]| |[|] m e]; try discriminate; reflexivity.
Qed.

(** ** Binary digits, shifts and rounding

    What the claims need of [/] on numbers: a quotient of non-negative
    operands is not negative, and a quotient [x / y] with [0 <= x <= y] is
    at most one.  Both are read off [SFdiv]: the integer quotient of the
    mantissas, then the rounding of [binary_round_aux]. *)

Section Rounding.

#[local] Open Scope Z_scope.

(** Number of binary digits. *)
Lemma digits2_size (p : positive) : digits2_pos p = Pos.size p.
Proof. induction p as [p IH|p IH|]; cbn [digits2_pos Pos.size]; congruence. Qed.

Lemma Zdigits2_log2 (m : Z) : 0 < m -> Zdigits2 m = Z.log2 m + 1.
Proof.
  destruct m as [|p|p]; try lia. intros _. cbn [Zdigits2].
  destruct p as [p|p|]; cbn [digits2_pos Z.log2]; try reflexivity;
    rewrite Pos2Z.inj_succ, digits2_size; lia.
Qed.

Lemma Zdigits2_bounds (m : Z) :
  0 < m -> 2 ^ (Zdigits2 m - 1) <= m < 2 ^ Zdigits2 m.
Proof.
  intros H. rewrite (Zdigits2_log2 m H).
  replace (Z.log2 m + 1 - 1) with (Z.log2 m) by lia.
  apply (Z.log2_spec m H).
Qed.

Lemma Zdigits2_nonneg (m : Z) : 0 <= Zdigits2 m.
Proof. destruct m; cbn; lia. Qed.

Lemma Zdigits2_le (m n : Z) : 0 < m -> m <= n -> Zdigits2 m <= Zdigits2 n.
Proof.
  intros Hm Hmn. rewrite !Zdigits2_log2 by lia.
  pose proof (Z.log2_le_mono m n Hmn). lia.
Qed.

(** [m < 2^k] bounds the digits by [k]. *)
Lemma Zdigits2_lt_pow2 (m k : Z) : 0 <= m -> 0 <= k -> m < 2 ^ k -> Zdigits2 m <= k.
Proof.
  intros Hm Hk H. destruct (Z.eq_dec m 0) as [->|]; [cbn; lia|].
  rewrite Zdigits2_log2 by lia.
  assert (Z.log2 m < k) by (apply Z.log2_lt_pow2; lia). lia.
Qed.

(** Iterated right shifts. *)
Lemma iter_pos_nat {A : Type} (f : A -> A) (p : positive) :
  forall x, iter_pos f p x = Nat.iter (Pos.to_nat p) f x.
Proof.
  induction p as [p IH|p IH|]; intros x; cbn [iter_pos].
  - rewrite !IH, Pos2Nat.inj_xI, <- Nat.iter_add.
    replace (S (2 * Pos.to_nat p))%nat with (S (Pos.to_nat p + Pos.to_nat p)) by lia.
    now rewrite Nat.iter_succ_r.
  - rewrite !IH, Pos2Nat.inj_xO, <- Nat.iter_add.
    now replace (Pos.to_nat p + Pos.to_nat p)%nat with (2 * Pos.to_nat p)%nat by lia.
  - reflexivity.
Qed.

Lemma shr_1_m (mrs : shr_record) :
  0 <= shr_m mrs -> shr_m (shr_1 mrs) = shr_m mrs / 2 /\ shr_r (shr_1 mrs) = Z.odd (shr_m mrs).
Proof.
  destruct mrs as [m r s]; cbn [shr_m]. intros H.
  destruct m as [|[p|p|]|p]; try lia; cbn [shr_1 shr_m shr_r]; split; try reflexivity.
  - rewrite Pos2Z.inj_xI. apply Z.div_unique with (r := 1); lia.
  - rewrite Pos2Z.inj_xO. apply Z.div_unique with (r := 0); lia.
Qed.

Lemma shr_iter_m (n : nat) (mrs : shr_record) :
  0 <= shr_m mrs ->
  shr_m (Nat.iter n shr_1 mrs) = shr_m mrs / 2 ^ Z.of_nat n.
Proof.
  intros H. induction n as [|n IH].
  - cbn. now rewrite Z.div_1_r.
  - rewrite Nat.iter_succ.
    assert (0 <= shr_m (Nat.iter n shr_1 mrs)).
    { rewrite IH. apply Z.div_pos; [lia|]. apply Z.pow_pos_nonneg; lia. }
    destruct (shr_1_m (Nat.iter n shr_1 mrs)) as [-> _]; trivial.
    rewrite IH, Nat2Z.inj_succ, Z.pow_succ_r by lia.
    assert (0 < 2 ^ Z.of_nat n) by (apply Z.pow_pos_nonneg; lia).
    rewrite Z.div_div by lia. f_equal. lia.
Qed.

Lemma shr_iter_r (n : nat) (mrs : shr_record) :
  0 <= shr_m mrs -> (1 <= n)%nat -> shr_m mrs mod 2 ^ Z.of_nat n = 0 ->
  shr_r (Nat.iter n shr_1 mrs) = false.
Proof.
  intros H Hn Hmod. destruct n as [|n]; [lia|]. rewrite Nat.iter_succ.
  assert (0 <= shr_m (Nat.iter n shr_1 mrs)).
  { rewrite shr_iter_m by trivial. apply Z.div_pos; [lia|]. apply Z.pow_pos_nonneg; lia. }
  destruct (shr_1_m (Nat.iter n shr_1 mrs)) as [_ ->]; trivial.
  rewrite shr_iter_m by trivial.
  rewrite Nat2Z.inj_succ, Z.pow_succ_r in Hmod by lia.
  assert (P : 0 < 2 ^ Z.of_nat n) by (apply Z.pow_pos_nonneg; lia).
  set (a := shr_m mrs) in *. set (b := 2 ^ Z.of_nat n) in *.
  apply Z.mod_divide in Hmod; [|lia]. destruct Hmod as [c Hc].
  rewrite Hc. replace (c * (2 * b)) with ((c * 2) * b) by ring.
  rewrite Z.div_mul by lia. rewrite Z.mul_comm.
  rewrite Z.odd_mul. reflexivity.
Qed.

(** [shr] as a division. *)
Lemma shr_spec (mrs : shr_record) (e n : Z) :
  0 <= shr_m mrs ->
  shr_m (fst (shr mrs e n)) = shr_m mrs / 2 ^ Z.max 0 n /\
  snd (shr mrs e n) = e + Z.max 0 n.
Proof.
  intros H. destruct n as [|p|p]; cbn [shr fst snd].
  - rewrite Z.max_l by lia. cbn. rewrite Z.div_1_r. split; lia.
  - rewrite Z.max_r by lia. rewrite iter_pos_nat, shr_iter_m by trivial.
    now rewrite positive_nat_Z.
  - rewrite Z.max_l by lia. cbn. rewrite Z.div_1_r. split; lia.
Qed.

Lemma shr_record_of_loc_m (m : Z) (l : location) : shr_m (shr_record_of_loc m l) = m.
Proof. destruct l as [|[]]; reflexivity. Qed.

Lemma round_nearest_even_bounds (m : Z) (l : location) :
  m <= round_nearest_even m l <= m + 1.
Proof. destruct l as [|[]]; cbn; try lia. destruct (Z.even m); lia. Qed.

(** The three shapes [binary_round_aux] can return for a non-negative mantissa. *)
Lemma binary_round_aux_shape (s : bool) (m e : Z) (l : location) :
  0 <= m ->
  let r := binary_round_aux prec emax s m e l in
  r = S754_zero s \/ r = S754_infinity s \/ exists m' e', r = S754_finite s m' e'.
Proof.
  intros Hm. cbv zeta. unfold binary_round_aux.
  destruct (shr_fexp prec emax m e l) as [mrs' e'] eqn:E1.
  assert (H1 : 0 <= shr_m mrs').
  { unfold shr_fexp in E1.
    destruct (shr_spec (shr_record_of_loc m l) e
                (fexp prec emax (Zdigits2 m + e) - e)) as [A _].
    { now rewrite shr_record_of_loc_m. }
    rewrite E1 in A. cbn [fst] in A. rewrite A, shr_record_of_loc_m.
    apply Z.div_pos; [lia|]. apply Z.pow_pos_nonneg; lia. }
  set (mr := round_nearest_even (shr_m mrs') (loc_of_shr_record mrs')).
  assert (H2 : 0 <= mr) by (pose proof (round_nearest_even_bounds (shr_m mrs') (loc_of_shr_record mrs')); subst mr; lia).
  destruct (shr_fexp prec emax mr e' loc_Exact) as [mrs'' e''] eqn:E2.
  assert (H3 : 0 <= shr_m mrs'').
  { unfold shr_fexp in E2.
    destruct (shr_spec (shr_record_of_loc mr loc_Exact) e'
                (fexp prec emax (Zdigits2 mr + e') - e')) as [A _].
    { now rewrite shr_record_of_loc_m. }
    rewrite E2 in A. cbn [fst] in A. rewrite A, shr_record_of_loc_m.
    apply Z.div_pos; [lia|]. apply Z.pow_pos_nonneg; lia. }
  destruct (shr_m mrs'') as [|p|p]; try lia; auto.
  destruct (e'' <=? emax - prec); eauto.
Qed.

Lemma fexp_eq (z : Z) : fexp prec emax z = Z.max (z - 53) (-1074).
Proof. reflexivity. Qed.

Lemma bounded_facts (m : positive) (e : Z) :
  bounded prec emax m e = true ->
  1 <= Zdigits2 (Zpos m) <= 53 /\ -1074 <= e <= 971 /\
  (Zdigits2 (Zpos m) = 53 \/ e = -1074).
Proof.
  unfold bounded, canonical_mantissa. rewrite andb_true_iff, Z.eqb_eq, Z.leb_le, fexp_eq.
  cbn [Zdigits2]. change (emax - prec) with 971. intros [H1 H2].
  pose proof (Pos2Z.is_pos (digits2_pos m)). lia.
Qed.

(** The quotient and exponent [SFdiv_core_binary] hands to the rounding. *)
Lemma SFdiv_core_binary_spec (m1 m2 : positive) (e1 e2 : Z) :
  let e' := Z.min (fexp prec emax (Zdigits2 (Zpos m1) + e1 - (Zdigits2 (Zpos m2) + e2))) (e1 - e2) in
  let s := e1 - e2 - e' in
  exists l, SFdiv_core_binary prec emax (Zpos m1) e1 (Zpos m2) e2
            = (Zpos m1 * 2 ^ s / Zpos m2, e', l).
Proof.
  intros e' s. unfold SFdiv_core_binary. fold e'. fold s.
  assert (Hs : 0 <= s) by (subst s e'; lia).
  clearbody s. clearbody e'.
  assert (E : match s with Z.pos _ => Z.shiftl (Z.pos m1) s | 0 => Z.pos m1 | Z.neg _ => 0 end
              = Zpos m1 * 2 ^ s).
  { destruct s as [|p|p]; try lia. now rewrite Z.shiftl_mul_pow2 by lia. }
  rewrite E. unfold Z.div. destruct (Z.div_eucl _ _) as [q r]. eauto.
Qed.

Lemma shr_fexp_spec (m e : Z) (l : location) :
  0 <= m ->
  let n := fexp prec emax (Zdigits2 m + e) - e in
  shr_m (fst (shr_fexp prec emax m e l)) = m / 2 ^ Z.max 0 n /\
  snd (shr_fexp prec emax m e l) = e + Z.max 0 n.
Proof.
  intros Hm n. unfold shr_fexp. fold n.
  destruct (shr_spec (shr_record_of_loc m l) e n) as [A B].
  { now rewrite shr_record_of_loc_m. }
  now rewrite A, B, shr_record_of_loc_m.
Qed.

(** After at least one shift of a multiple of [2^n], no rounding up. *)
Lemma shr_fexp_exact_round (m e : Z) (l : location) :
  0 <= m ->
  let n := fexp prec emax (Zdigits2 m + e) - e in
  1 <= n -> m mod 2 ^ n = 0 ->
  let mrs := fst (shr_fexp prec emax m e l) in
  round_nearest_even (shr_m mrs) (loc_of_shr_record mrs) = shr_m mrs.
Proof.
  intros Hm n Hn Hmod mrs. subst mrs. unfold shr_fexp. fold n.
  destruct n as [|p|p]; try lia. cbn [shr fst].
  rewrite iter_pos_nat.
  assert (R : shr_r (Nat.iter (Pos.to_nat p) shr_1 (shr_record_of_loc m l)) = false).
  { apply shr_iter_r.
    - now rewrite shr_record_of_loc_m.
    - lia.
    - now rewrite shr_record_of_loc_m, positive_nat_Z. }
  destruct (Nat.iter _ _ _) as [m' r' s']. cbn [shr_r] in R. subst r'.
  destruct s'; reflexivity.
Qed.

(** Rounding a value [q * 2^e'] that is at most one gives at most one. *)
Lemma binary_round_aux_le_one (q e' : Z) (l : location) :
  0 <= q -> e' <= -53 -> q <= 2 ^ (- e') ->
  let r := binary_round_aux prec emax false q e' l in
  r = S754_zero false \/
  exists m e, r = S754_finite false m e /\ (e < -52 \/ (e = -52 /\ Zpos m = 2 ^ 52)).
Proof.
  intros Hq He' Hle. cbv zeta. unfold binary_round_aux.
  pose proof (shr_fexp_spec q e' l Hq) as S1. cbv zeta in S1.
  pose proof (shr_fexp_exact_round q e' l Hq) as X1. cbv zeta in X1.
  rewrite fexp_eq in S1, X1.
  set (dq := Zdigits2 q) in *.
  set (n1 := Z.max (dq + e' - 53) (-1074) - e') in *.
  destruct (shr_fexp prec emax q e' l) as [mrs' e1'] eqn:E1. cbn [fst snd] in S1, X1.
  destruct S1 as [Sm Se].
  assert (Hdq0 : 0 <= dq) by apply Zdigits2_nonneg.
  assert (Hqlt : q < 2 ^ dq).
  { destruct (Z.eq_dec q 0) as [->|]; [apply Z.pow_pos_nonneg; lia|].
    apply Zdigits2_bounds; lia. }
  assert (Hdq : dq <= 1 - e').
  { apply Zdigits2_lt_pow2; try lia.
    replace (1 - e') with (Z.succ (- e')) by lia. rewrite Z.pow_succ_r by lia.
    pose proof (Z.pow_pos_nonneg 2 (- e')). lia. }
  assert (P1 : 0 < 2 ^ Z.max 0 n1) by (apply Z.pow_pos_nonneg; lia).
  assert (A : -1074 <= e1' /\ 0 <= shr_m mrs' < 2 ^ 53).
  { rewrite Sm, Se. split; [lia|]. split; [apply Z.div_pos; lia|].
    apply Z.div_lt_upper_bound; [lia|]. rewrite <- Z.pow_add_r by lia.
    apply Z.lt_le_trans with (1 := Hqlt). apply Z.pow_le_mono_r; lia. }
  assert (B : e1' <= -53 \/ (e1' = -52 /\ q = 2 ^ (- e') /\ n1 = -52 - e')).
  { destruct (Z.le_gt_cases (dq + e') 0) as [Hd|Hd]; [left; lia|right].
    assert (dq = 1 - e') by lia. split; [lia|]. split; [|lia].
    assert (q <> 0) by (intros ->; subst dq; cbn in *; lia).
    pose proof (Zdigits2_bounds q ltac:(lia)) as [Hb _]. fold dq in Hb.
    replace (dq - 1) with (- e') in Hb by lia. lia. }
  set (mr := round_nearest_even (shr_m mrs') (loc_of_shr_record mrs')).
  pose proof (round_nearest_even_bounds (shr_m mrs') (loc_of_shr_record mrs')) as Hmr.
  fold mr in Hmr.
  assert (Hmr0 : 0 <= mr) by lia.
  pose proof (shr_fexp_spec mr e1' loc_Exact Hmr0) as S2. cbv zeta in S2.
  rewrite fexp_eq in S2.
  destruct (shr_fexp prec emax mr e1' loc_Exact) as [mrs'' e''] eqn:E2. cbn [fst snd] in S2.
  destruct S2 as [Sm2 Se2].
  destruct B as [B|(B1 & B2 & B3)].
  - (* the rounded mantissa sits at an exponent below -52 *)
    destruct (Z.eq_dec mr (2 ^ 53)) as [Hmax|Hmax].
    + rewrite Hmax in Sm2, Se2.
      change (Zdigits2 (2 ^ 53)) with 54 in Sm2, Se2.
      replace (Z.max 0 (Z.max (54 + e1' - 53) (-1074) - e1')) with 1 in Sm2, Se2 by lia.
      change (2 ^ 53 / 2 ^ 1) with (2 ^ 52) in Sm2. rewrite Sm2.
      change (2 ^ 52) with (Zpos 4503599627370496).
      cbv iota beta. replace (e'' <=? emax - prec) with true
        by (symmetry; apply Z.leb_le; change (emax - prec) with 971; lia).
      right. exists 4503599627370496%positive, e''. split; [reflexivity|].
      change (Zpos 4503599627370496) with (2 ^ 52). lia.
    + assert (Hlt : mr < 2 ^ 53) by lia.
      assert (Hd : Zdigits2 mr <= 53) by (apply Zdigits2_lt_pow2; lia).
      replace (Z.max 0 (Z.max (Zdigits2 mr + e1' - 53) (-1074) - e1')) with 0 in Sm2, Se2 by lia.
      rewrite Z.pow_0_r, Z.div_1_r in Sm2. rewrite Sm2.
      destruct mr as [|p|p]; try lia; [now left|right].
      replace (e'' <=? emax - prec) with true
        by (symmetry; apply Z.leb_le; change (emax - prec) with 971; lia).
      exists p, e''. split; [reflexivity|]. left. lia.
  - (* the value is exactly one *)
    assert (Hn1 : 1 <= n1) by lia.
    assert (Hpow : q = 2 ^ 52 * 2 ^ n1).
    { rewrite B2, <- Z.pow_add_r by lia. f_equal. lia. }
    assert (Hm1 : shr_m mrs' = 2 ^ 52).
    { rewrite Sm, Z.max_r by lia. rewrite Hpow. apply Z.div_mul.
      pose proof (Z.pow_pos_nonneg 2 n1). lia. }
    assert (Hmr' : mr = 2 ^ 52).
    { subst mr. rewrite X1; trivial. rewrite Hpow. apply Z.mod_mul.
      pose proof (Z.pow_pos_nonneg 2 n1). lia. }
    rewrite Hmr' in Sm2, Se2. rewrite B1 in Se2, Sm2.
    change (Zdigits2 (2 ^ 52)) with 53 in Sm2, Se2.
    change (Z.max 0 (Z.max (53 + -52 - 53) (-1074) - -52)) with 0 in Sm2, Se2.
    change (2 ^ 52 / 2 ^ 0) with (Zpos 4503599627370496) in Sm2.
    rewrite Sm2, Se2. cbn. right. exists 4503599627370496%positive, (-52).
    split; [reflexivity|]. right. split; reflexivity.
Qed.

(** The order on positive finite numbers, read on exponent and mantissa. *)
Lemma SFleb_finite (m1 m2 : positive) (e1 e2 : Z) :
  SFleb (S754_finite false m1 e1) (S754_finite false m2 e2) = true <->
  e1 < e2 \/ (e1 = e2 /\ Zpos m1 <= Zpos m2).
Proof.
  unfold SFleb, SFcompare. change (Pos.compare_cont Eq m1 m2) with (m1 ?= m2)%positive.
  destruct (Z.compare_spec e1 e2); [destruct (Pos.compare_spec m1 m2)| |];
    split; intros; try discriminate; try reflexivity; try lia.
Qed.

(** For positive finite [x <= y], the quotient [x / y] is a zero or a
    positive number at most one. *)
Lemma SFdiv_le_one (m1 m2 : positive) (e1 e2 : Z) :
  bounded prec emax m1 e1 = true -> bounded prec emax m2 e2 = true ->
  SFleb (S754_finite false m1 e1) (S754_finite false m2 e2) = true ->
  let r := SF64div (S754_finite false m1 e1) (S754_finite false m2 e2) in
  r = S754_zero false \/
  exists m e, r = S754_finite false m e /\ (e < -52 \/ (e = -52 /\ Zpos m = 2 ^ 52)).
Proof.
  intros B1 B2 Hle. apply SFleb_finite in Hle.
  apply bounded_facts in B1, B2.
  destruct B1 as ([D1a D1b] & [E1a E1b] & C1), B2 as ([D2a D2b] & [E2a E2b] & C2).
  pose proof (Zdigits2_bounds (Zpos m1) ltac:(lia)) as [L1 U1].
  pose proof (Zdigits2_bounds (Zpos m2) ltac:(lia)) as [L2 U2].
  cbv zeta. unfold SF64div, SFdiv.
  destruct (SFdiv_core_binary_spec m1 m2 e1 e2) as [l ->]. cbv zeta.
  rewrite fexp_eq. cbn [xorb].
  set (d1 := Zdigits2 (Zpos m1)) in *. set (d2 := Zdigits2 (Zpos m2)) in *.
  assert (HD : d1 + e1 - (d2 + e2) <= 0).
  { destruct Hle as [Hlt|[-> Hm]]; [lia|].
    pose proof (Zdigits2_le (Zpos m1) (Zpos m2) ltac:(lia) Hm). fold d1 d2 in H. lia. }
  set (e' := Z.min (Z.max (d1 + e1 - (d2 + e2) - 53) (-1074)) (e1 - e2)).
  assert (He' : e' <= -53) by (subst e'; lia).
  assert (Hs : 0 <= e1 - e2 - e') by (subst e'; lia).
  assert (P : 0 < 2 ^ (e1 - e2 - e')) by (apply Z.pow_pos_nonneg; lia).
  apply binary_round_aux_le_one; trivial.
  - apply Z.div_pos; lia.
  - apply Z.div_le_upper_bound; [lia|].
    replace (- e') with ((e2 - e1) + (e1 - e2 - e')) by lia.
    rewrite Z.pow_add_r by lia. rewrite Z.mul_assoc.
    apply Z.mul_le_mono_nonneg_r; [lia|].
    destruct Hle as [Hlt|[-> Hm]].
    + assert (d2 = 53) by lia.
      assert (2 ^ 1 <= 2 ^ (e2 - e1)) by (apply Z.pow_le_mono_r; lia).
      assert (2 ^ d1 <= 2 ^ 53) by (apply Z.pow_le_mono_r; lia).
      replace (d2 - 1) with 52 in L2 by lia.
      change (2 ^ 1) with 2 in *. change (2 ^ 53) with (2 * 2 ^ 52) in *.
      assert (2 * 2 ^ 52 <= Zpos m2 * 2 ^ (e2 - e1)).
      { apply Z.le_trans with (Zpos m2 * 2); [lia|].
        apply Z.mul_le_mono_nonneg_l; lia. }
      lia.
    + rewrite Z.sub_diag, Z.pow_0_r. lia.
Qed.

Lemma Z2F_spec (k : Z) :
  0 <= k < 2 ^ 63 -> Prim2SF (Z2F k) = binary_normalize prec emax k 0 false.
Proof.
  intros H. unfold Z2F. destruct (Z.ltb_spec k 0) as [Hneg|_]; [lia|].
  rewrite of_uint63_spec. f_equal.
  rewrite Uint63.of_Z_spec. apply Z.mod_small. exact H.
Qed.

Lemma iter_xO_pow2 (p n : positive) : Zpos (Pos.iter xO p n) = Zpos p * 2 ^ Zpos n.
Proof.
  change (Pos.iter xO p n) with (Zpower.shift_pos n p).
  rewrite Zpower.shift_pos_correct, Zpower.Zpower_pos_nat, Zpower.Zpower_nat_Z.
  rewrite positive_nat_Z. ring.
Qed.

(** Rounding leaves a mantissa of 53 digits at an exponent in range alone. *)
Lemma binary_round_aux_canonical (s : bool) (M : positive) (E : Z) :
  Zdigits2 (Zpos M) = 53 -> -1074 <= E <= 971 ->
  binary_round_aux prec emax s (Zpos M) E loc_Exact = S754_finite s M E.
Proof.
  intros HM HE. unfold binary_round_aux, shr_fexp. rewrite fexp_eq, HM.
  replace (Z.max (53 + E - 53) (-1074) - E) with 0 by lia.
  cbn [shr shr_record_of_loc shr_m loc_of_shr_record round_nearest_even].
  rewrite fexp_eq, HM. replace (Z.max (53 + E - 53) (-1074) - E) with 0 by lia.
  cbn [shr shr_record_of_loc shr_m].
  replace (E <=? emax - prec) with true; [reflexivity|].
  symmetry. apply Z.leb_le. change (emax - prec) with 971. lia.
Qed.

(** A positive integer below [2^53] is a number, exactly: its mantissa is
    the integer shifted up to 53 digits. *)
Lemma binary_normalize_small (k : Z) :
  0 < k < 2 ^ 53 ->
  exists M : positive,
    binary_normalize prec emax k 0 false = S754_finite false M (Zdigits2 k - 53) /\
    Zpos M = k * 2 ^ (53 - Zdigits2 k).
Proof.
  intros [H0 H53]. destruct k as [|p|p]; try lia.
  assert (Hd : 1 <= Zdigits2 (Zpos p) <= 53).
  { split; [cbn [Zdigits2]; lia|]. apply Zdigits2_lt_pow2; lia. }
  cbn [binary_normalize]. unfold binary_round, shl_align.
  rewrite fexp_eq, Z.add_0_r.
  change (Z.pos (digits2_pos p)) with (Zdigits2 (Zpos p)).
  set (d := Zdigits2 (Zpos p)) in *.
  replace (Z.max (d - 53) (-1074) - 0) with (d - 53) by lia.
  destruct (d - 53) as [|n|n] eqn:En; try lia.
  - exists p. assert (d = 53) by lia.
    rewrite binary_round_aux_canonical by (fold d; lia).
    split; [reflexivity|]. replace (53 - d) with 0 by lia. lia.
  - exists (Pos.iter xO p n).
    assert (En' : 53 - d = Zpos n) by lia.
    assert (HM : Zpos (Pos.iter xO p n) = Zpos p * 2 ^ (53 - d)).
    { rewrite En'. apply iter_xO_pow2. }
    replace (Z.max (d - 53) (-1074)) with (d - 53) by lia.
    rewrite binary_round_aux_canonical; [split; [f_equal; lia|exact HM]| |lia].
    rewrite HM, Zdigits2_log2 by lia.
    rewrite Z.log2_mul_pow2 by lia.
    subst d. rewrite Zdigits2_log2 by lia. lia.
Qed.

End Rounding.

(** ** Quotients and counters *)

Lemma ltb_infinity_spec (x : float) :
  (x <? infinity) = match Prim2SF x with
                    | S754_nan | S754_infinity false => false
                    | _ => true
                    end.
Proof.
  rewrite ltb_spec. change (Prim2SF infinity) with (S754_infinity false).
  destruct (Prim2SF x) as [s|[|]| |[|] m e]; reflexivity.
Qed.

Lemma leb_one_spec (x : float) :
  (x <=? 1) = SFleb (Prim2SF x) (S754_finite false 4503599627370496 (-52)).
Proof. now rewrite leb_spec. Qed.

(** A quotient of a non-negative finite number by a positive one is a
    non-negative number. *)
Lemma div_nonneg (x y : float) :
  (0 <=? x) = true -> (x <? infinity) = true -> (0 <? y) = true ->
  (0 <=? x / y) = true.
Proof.
  rewrite !leb_zero_spec, ltb_infinity_spec, ltb_zero_spec, div_spec.
  destruct (Prim2SF x) as [sx|[|]| |[|] mx ex], (Prim2SF y) as [sy|[|]| |[|] my ey];
    try discriminate; try reflexivity; intros _ _ _.
  unfold SF64div, SFdiv.
  destruct (SFdiv_core_binary_spec mx my ex ey) as [l ->]. cbv zeta. cbn [xorb].
  match goal with |- context [binary_round_aux _ _ _ ?q ?e ?l] =>
    destruct (binary_round_aux_shape false q e l) as [-> | [-> | (m' & e' & ->)]]
  end; try reflexivity.
  apply Z.div_pos; [|lia]. apply Z.mul_nonneg_nonneg; [lia|]. apply Z.pow_nonneg. lia.
Qed.

(** A quotient [x / y] with [0 <= x <= y], [x] finite and [y] positive lies
    between zero and one. *)
Lemma div_unit (x y : float) :
  (0 <=? x) = true -> (x <=? y) = true -> (x <? infinity) = true -> (0 <? y) = true ->
  (0 <=? x / y) = true /\ (x / y <=? 1) = true.
Proof.
  intros H0 Hxy Hfin Hy. split; [now apply div_nonneg|].
  pose proof (Prim2SF_valid x) as Vx. pose proof (Prim2SF_valid y) as Vy.
  revert H0 Hxy Hfin Hy.
  rewrite leb_zero_spec, ltb_infinity_spec, ltb_zero_spec, leb_one_spec, leb_spec, div_spec.
  destruct (Prim2SF x) as [sx|[|]| |[|] mx ex], (Prim2SF y) as [sy|[|]| |[|] my ey];
    try discriminate; try reflexivity; try (destruct sx; reflexivity).
  intros _ Hxy _ _.
  destruct (SFdiv_le_one mx my ex ey Vx Vy Hxy) as [-> | (m & e & -> & He)];
    [reflexivity|].
  apply SFleb_finite. destruct He as [He|[-> Hm]]; [left; exact He|right].
  split; [reflexivity|]. rewrite Hm. reflexivity.
Qed.

(** [Math.min(1, q)] of a non-negative number is in the unit interval. *)
Lemma Math_min_one_unit (q : float) :
  (0 <=? q) = true ->
  (0 <=? Math_min 1 q) = true /\ (Math_min 1 q <=? 1) = true.
Proof.
  intros H. destruct (leb_not_nan _ _ H) as [_ Hn].
  unfold Math_min. change (is_nan 1) with false. rewrite Hn. cbn [orb].
  destruct (1 <? q) eqn:E1; [split; reflexivity|].
  destruct (q <? 1) eqn:E2; [split; [exact H|now apply ltb_leb]|].
  change (get_sign 1) with false. cbv iota.
  split; [exact H|]. apply not_ltb_leb; trivial.
Qed.

Lemma Z2F_zero : Z2F 0 = 0.
Proof. reflexivity. Qed.

Lemma Z2F_pos (n : Z) : (0 < n < 2 ^ 53)%Z -> (0 <? Z2F n) = true.
Proof.
  intros H. rewrite ltb_zero_spec, Z2F_spec by lia.
  destruct (binary_normalize_small n H) as (M & -> & _). reflexivity.
Qed.

Lemma Z2F_nonneg (k : Z) : (0 <= k < 2 ^ 53)%Z -> (0 <=? Z2F k) = true.
Proof.
  intros H. destruct (Z.eq_dec k 0) as [->|]; [reflexivity|].
  apply ltb_leb, Z2F_pos. lia.
Qed.

Lemma Z2F_finite (k : Z) : (0 <= k < 2 ^ 53)%Z -> (Z2F k <? infinity) = true.
Proof.
  intros H. destruct (Z.eq_dec k 0) as [->|]; [reflexivity|].
  rewrite ltb_infinity_spec, Z2F_spec by lia.
  destruct (binary_normalize_small k ltac:(lia)) as (M & -> & _). reflexivity.
Qed.

Lemma Z2F_le (k n : Z) : (0 <= k <= n)%Z -> (n < 2 ^ 53)%Z -> (Z2F k <=? Z2F n) = true.
Proof.
  intros [H0 Hkn] Hn. destruct (Z.eq_dec k 0) as [->|Hk].
  { rewrite Z2F_zero. apply Z2F_nonneg. lia. }
  rewrite leb_spec, !Z2F_spec by lia.
  destruct (binary_normalize_small k ltac:(lia)) as (Mk & -> & Ek).
  destruct (binary_normalize_small n ltac:(lia)) as (Mn & -> & En).
  apply SFleb_finite.
  pose proof (Zdigits2_le k n ltac:(lia) Hkn) as Hd.
  destruct (Z.eq_dec (Zdigits2 k) (Zdigits2 n)) as [E|E]; [right|left; lia].
  split; [lia|]. rewrite Ek, En, E.
  apply Z.mul_le_mono_nonneg_r; [|lia]. apply Z.pow_nonneg. lia.
Qed.

(** Zero over a positive number is zero. *)
Lemma zero_div_pos (y : float) : (0 <? y) = true -> 0 / y = 0.
Proof.
  rewrite ltb_zero_spec. intros H. apply Prim2SF_inj. rewrite div_spec.
  change (Prim2SF 0) with (S754_zero false).
  destruct (Prim2SF y) as [s|[|]| |[|] m e]; try discriminate; reflexivity.
Qed.

(** The ratio of two counters [k <= n] is in the unit interval. *)
Lemma counter_ratio_unit (k n : Z) :
  (0 <= k <= n)%Z -> (0 < n < 2 ^ 53)%Z ->
  (0 <=? Z2F k / Z2F n) = true /\ (Z2F k / Z2F n <=? 1) = true.
Proof.
  intros Hk Hn. apply div_unit.
  - apply Z2F_nonneg; lia.
  - apply Z2F_le; lia.
  - apply Z2F_finite; lia.
  - apply Z2F_pos; lia.
Qed.

Lemma Math_min_one (a : float) :
  is_nan a = false ->
  is_nan (Math_min 1 a) = false /\ (Math_min 1 a <=? 1) = true.
Proof.
  intros Hn. unfold Math_min. change (is_nan 1) with false. rewrite Hn. cbn [orb].
  destruct (1 <? a) eqn:E1; [split; reflexivity|].
  destruct (a <? 1) eqn:E2; [split; [exact Hn|now apply ltb_leb]|].
  change (get_sign 1) with false. cbv iota.
  split; [exact Hn|]. apply not_ltb_leb; trivial.
Qed.

Lemma clamp_unit (v a : float) :
  in_unit v = true -> clamped v (Math_max v (Math_min 1 a)).
Proof.
  unfold in_unit, clamped. rewrite andb_true_iff. intros [H0 H1].
  destruct (leb_not_nan _ _ H0) as [_ Hv].
  destruct (is_nan a) eqn:Ha.
  { left. unfold Math_min. rewrite Ha, orb_true_r. unfold Math_max.
    change (is_nan nan) with true. now rewrite orb_true_r. }
  right. destruct (Math_min_one a Ha) as [Hm Hm1].
  set (m := Math_min 1 a) in *. unfold Math_max. rewrite Hv, Hm. cbn [orb].
  assert (Hvm : (v <=? m) = true -> (v <=? m) = true /\ ((0 <=? m) && (m <=? 1)) = true).
  { intros H. split; [exact H|]. now rewrite (nonneg_leb _ _ H0 H), Hm1. }
  assert (Hvv : (v <=? v) = true /\ ((0 <=? v) && (v <=? 1)) = true).
  { rewrite geb_self, Hv, H0, H1. now split. }
  destruct (v <? m) eqn:E1; [apply Hvm, ltb_leb, E1|].
  destruct (m <? v) eqn:E2; [exact Hvv|].
  destruct (get_sign v); [|exact Hvv].
  apply Hvm, not_ltb_leb; trivial.
Qed.

(** ** Operations that do not return NaN *)

Lemma is_infinity_spec (x : float) :
  is_infinity x = match Prim2SF x with S754_infinity _ => true | _ => false end.
Proof.
  unfold is_infinity. rewrite eqb_spec, abs_spec.
  change (Prim2SF infinity) with (S754_infinity false).
  destruct (Prim2SF x) as [s|s| |s m e]; reflexivity.
Qed.

Lemma is_finite_spec (x : float) : is_finite x = SFfinite (Prim2SF x).
Proof.
  unfold is_finite. rewrite is_nan_spec, is_infinity_spec.
  destruct (Prim2SF x); reflexivity.
Qed.

Lemma binary_normalize_not_nan (m e : Z) (s : bool) :
  SFis_nan (binary_normalize prec emax m e s) = false.
Proof.
  destruct m as [|p|p]; cbn [binary_normalize]; [reflexivity| |];
    unfold binary_round;
    destruct (shl_align _ _ _) as [mz ez];
    match goal with |- context [binary_round_aux _ _ ?s ?m ?e ?l] =>
      destruct (binary_round_aux_shape s m e l) as [-> | [-> | (m' & e' & ->)]]
    end; try reflexivity; lia.
Qed.

(** The sign of a normalised non-negative integer. *)
Lemma binary_normalize_nonneg (m e : Z) :
  (0 <= m)%Z -> SFnonneg (binary_normalize prec emax m e false) = true.
Proof.
  intros H. destruct m as [|p|p]; cbn [binary_normalize]; [reflexivity| |lia].
  unfold binary_round. destruct (shl_align _ _ _) as [mz ez].
  match goal with |- context [binary_round_aux _ _ ?s ?m ?e ?l] =>
    destruct (binary_round_aux_shape s m e l) as [-> | [-> | (m' & e' & ->)]]
  end; try reflexivity; lia.
Qed.

Lemma SFsub_not_nan (x y : spec_float) :
  SFis_nan x = false -> SFfinite y = true -> SFis_nan (SF64sub x y) = false.
Proof.
  unfold SF64sub.
  destruct x as [sx|sx| |sx mx ex], y as [sy|sy| |sy my ey]; try discriminate; intros _ _;
    cbn [SFsub]; try reflexivity; try (destruct sx, sy; reflexivity).
  apply binary_normalize_not_nan.
Qed.

Lemma SFmul_not_nan (x y : spec_float) :
  (exists s m e, x = S754_finite s m e) -> SFis_nan y = false ->
  SFis_nan (SF64mul x y) = false.
Proof.
  intros (s & m & e & ->). unfold SF64mul.
  destruct y as [sy|sy| |sy my ey]; try discriminate; intros _; cbn [SFmul]; try reflexivity.
  match goal with |- context [binary_round_aux _ _ ?s ?m ?e ?l] =>
    destruct (binary_round_aux_shape s m e l) as [-> | [-> | (m' & e' & ->)]]
  end; try reflexivity; lia.
Qed.

Lemma SFsqrt_nonneg (x : spec_float) :
  SFnonneg x = true -> SFnonneg (SF64sqrt x) = true.
Proof.
  unfold SF64sqrt. destruct x as [s|[|]| |[|] m e]; try discriminate; intros _;
    cbn [SFsqrt]; try reflexivity.
  unfold SFsqrt_core_binary.
  match goal with |- context [Z.sqrtrem ?a] =>
    pose proof (Z.sqrtrem_spec a) as H; destruct (Z.sqrtrem a) as [q r]
  end.
  match goal with |- context [binary_round_aux _ _ ?s ?m ?e ?l] =>
    destruct (binary_round_aux_shape s m e l) as [-> | [-> | (m' & e' & ->)]]
  end; try reflexivity.
  match type of H with ?P -> _ => assert (HP : P) end.
  { destruct (e - 2 * _)%Z; try lia. rewrite Z.shiftl_mul_pow2 by lia.
    apply Z.mul_nonneg_nonneg; [lia|]. apply Z.pow_nonneg. lia. }
  specialize (H HP). lia.
Qed.

Lemma SFadd_nonneg (x y : spec_float) :
  SFnonneg x = true -> SFnonneg y = true -> SFnonneg (SF64add x y) = true.
Proof.
  unfold SF64add.
  destruct x as [sx|[|]| |[|] mx ex], y as [sy|[|]| |[|] my ey]; try discriminate; intros _ _;
    cbn [SFadd]; try reflexivity; try (destruct sx, sy; reflexivity).
  apply binary_normalize_nonneg. cbn [cond_Zopp]. lia.
Qed.

(** A non-negative number over a positive finite one. *)
Lemma SFdiv_nonneg_finite (x y : spec_float) :
  SFnonneg x = true -> (exists m e, y = S754_finite false m e) ->
  SFnonneg (SF64div x y) = true.
Proof.
  intros Hx (my & ey & ->). unfold SF64div.
  destruct x as [sx|[|]| |[|] mx ex]; try discriminate; cbn [SFdiv xorb]; try reflexivity.
  destruct (SFdiv_core_binary_spec mx my ex ey) as [l ->]. cbv zeta.
  match goal with |- context [binary_round_aux _ _ ?s ?m ?e ?l] =>
    destruct (binary_round_aux_shape s m e l) as [-> | [-> | (m' & e' & ->)]]
  end; try reflexivity.
  apply Z.div_pos; [|lia]. apply Z.mul_nonneg_nonneg; [lia|]. apply Z.pow_nonneg. lia.
Qed.

Lemma add_not_nan (x y : float) :
  is_finite x = true -> is_nan y = false -> is_nan (x + y) = false.
Proof.
  rewrite is_finite_spec, !is_nan_spec, add_spec. unfold SF64add.
  destruct (Prim2SF x) as [sx|sx| |sx mx ex], (Prim2SF y) as [sy|sy| |sy my ey];
    try discriminate; intros _ _;
    cbn [SFadd]; try reflexivity; try (destruct sx, sy; reflexivity).
  apply binary_normalize_not_nan.
Qed.

Lemma sub_not_nan (x y : float) :
  is_nan x = false -> is_finite y = true -> is_nan (x - y) = false.
Proof. rewrite is_finite_spec, !is_nan_spec, sub_spec. apply SFsub_not_nan. Qed.

Lemma finite_nonzero_spec (x : float) :
  finite_nonzero x = true -> exists s m e, Prim2SF x = S754_finite s m e.
Proof.
  unfold finite_nonzero. rewrite is_finite_spec, eqb_zero_spec.
  destruct (Prim2SF x) as [s|s| |s m e]; try discriminate. eauto.
Qed.

Lemma mul_not_nan (x y : float) :
  finite_nonzero x = true -> is_nan y = false -> is_nan (x * y) = false.
Proof.
  intros Hx. rewrite !is_nan_spec, mul_spec. apply SFmul_not_nan, finite_nonzero_spec, Hx.
Qed.

Lemma sqrt_nonneg (x : float) : (0 <=? x) = true -> (0 <=? sqrt x) = true.
Proof. rewrite !leb_zero_spec, sqrt_spec. apply SFsqrt_nonneg. Qed.

Lemma add_nonneg (x y : float) :
  (0 <=? x) = true -> (0 <=? y) = true -> (0 <=? x + y) = true.
Proof. rewrite !leb_zero_spec, add_spec. apply SFadd_nonneg. Qed.

Lemma fold_add_nonneg (xs : list float) :
  forall acc : float,
    (0 <=? acc) = true -> Forall (fun f => (0 <=? f) = true) xs ->
    (0 <=? fold_left add xs acc) = true.
Proof.
  induction xs as [|x xs IH]; intros acc Hacc Hxs; cbn [fold_left].
  - exact Hacc.
  - inversion Hxs as [|y ys Hx Hrest]; subst. apply IH; trivial. now apply add_nonneg.
Qed.

Lemma sum_nonneg (xs : list float) :
  Forall (fun f => (0 <=? f) = true) xs -> (0 <=? sum xs) = true.
Proof. intros H. unfold sum. now apply fold_add_nonneg. Qed.

(** A positive number at most one is positive and finite. *)
Lemma pos_le_one_spec (y : float) :
  (0 <? y) = true -> (y <=? 1) = true -> exists m e, Prim2SF y = S754_finite false m e.
Proof.
  rewrite ltb_zero_spec, leb_one_spec.
  destruct (Prim2SF y) as [s|[|]| |[|] m e]; try discriminate; eauto.
Qed.

Lemma div_nonneg_finite (x y : float) :
  (0 <=? x) = true -> (exists m e, Prim2SF y = S754_finite false m e) ->
  (0 <=? x / y) = true.
Proof. rewrite !leb_zero_spec, div_spec. apply SFdiv_nonneg_finite. Qed.

Lemma unit_finite (x : float) : in_unit x = true -> is_finite x = true.
Proof.
  unfold in_unit. rewrite andb_true_iff, leb_zero_spec, leb_one_spec, is_finite_spec.
  destruct (Prim2SF x) as [s|[|]| |[|] m e]; intros [H0 H1]; try discriminate; reflexivity.
Qed.

Lemma clamp_bounds (v a : float) :
  in_unit v = true -> is_nan a = false ->
  within_floor v (Math_max v (Math_min 1 a)).
Proof.
  intros Hv Ha. destruct (clamp_unit v a Hv) as [Hn|H]; [|exact H].
  exfalso. revert Hn. unfold in_unit in Hv. apply andb_true_iff in Hv. destruct Hv as [H0 _].
  destruct (leb_not_nan _ _ H0) as [_ Hvn].
  destruct (Math_min_one a Ha) as [Hm _].
  unfold Math_max. rewrite Hvn, Hm. cbn [orb].
  destruct (v <? Math_min 1 a); [congruence|].
  destruct (Math_min 1 a <? v); [congruence|].
  destruct (get_sign v); congruence.
Qed.

Lemma computeQStar_le_one (params : ProtocolParams) :
  (0 <? computeQStar params) = true -> (computeQStar params <=? 1) = true.
Proof.
  unfold computeQStar. destruct (L params + computeDelta params <=? 0); [reflexivity|].
  set (q := C_safe params / (L params + computeDelta params)).
  destruct (is_nan q) eqn:E.
  - unfold Math_min. rewrite E, orb_true_r. discriminate.
  - intros _. apply Math_min_one, E.
Qed.

(** ** Equilibrium solver *)

(** C5: with the default parameters [computeDelta] is exactly 91.75,
    [computeTheta] is exactly 0.03, which is 4.5/150, and [computeQStar] is
    exactly 8/141.75, which is 0.0564 to four decimal places. *)
Theorem default_parameters_scenario :
  computeDelta DEFAULT_PARAMS = 91.75 /\
  computeTheta DEFAULT_PARAMS = 0.03 /\
  computeTheta DEFAULT_PARAMS = 4.5 / 150 /\
  computeQStar DEFAULT_PARAMS = 8 / 141.75 /\
  (0.05635 <=? computeQStar DEFAULT_PARAMS) = true /\
  (computeQStar DEFAULT_PARAMS <? 0.05645) = true.
Proof. vm_compute. repeat split; reflexivity. Qed.

(** C10: the belief threshold [mu_star] returned by [computeEquilibrium] is
    always its [q_star]. *)
Theorem mu_star_is_q_star :
  forall params : ProtocolParams,
    mu_star (computeEquilibrium params) = q_star (computeEquilibrium params).
Proof. intros params. reflexivity. Qed.

(** C1, counterexample: with stake 1 and no settlement payment (other
    fields at their defaults) the minimum viable stake is 11.25/0.475, about
    23.7, so [isEnforcementViable] is false, while [isICsatisfied] is true. *)
Lemma viability_flags_differ :
  isEnforcementViable (computeEquilibrium stake_below_floor) = false /\
  isICsatisfied (computeEquilibrium stake_below_floor) = true /\
  S_P_min (computeEquilibrium stake_below_floor) = 11.25 / 0.475.
Proof. vm_compute. repeat split; reflexivity. Qed.

(** C1, amended: [isICsatisfied] compares [theta] with itself, so it is
    true exactly when [theta] is not NaN, whatever the stake;
    [isEnforcementViable] is [S_P >= S_P_min]; the two flags are equal
    exactly when those two tests agree. *)
Theorem viability_flags :
  forall params : ProtocolParams,
    isICsatisfied (computeEquilibrium params) = negb (is_nan (computeTheta params)) /\
    isEnforcementViable (computeEquilibrium params)
      = geb (S_P params) (computeMinViableStake params) /\
    (isEnforcementViable (computeEquilibrium params)
       = isICsatisfied (computeEquilibrium params) <->
     geb (S_P params) (computeMinViableStake params)
       = negb (is_nan (computeTheta params))).
Proof.
  intros params.
  assert (H : isICsatisfied (computeEquilibrium params) = negb (is_nan (computeTheta params))).
  { cbn [computeEquilibrium isICsatisfied]. unfold computeVStar, geb. apply geb_self. }
  split; [exact H|]. split; [reflexivity|].
  rewrite H. reflexivity.
Qed.

(** C3, counterexample: with [P_set + S_P = 0], [computeTheta] returns
    [-infinity] when honesty is cheaper than cheating ([c_H = 0.5], [c_F = 5])
    and NaN when the two costs are equal; neither is [+infinity], and no
    error is signalled. *)
Lemma theta_zero_denominator_not_plus_infinity :
  P_set zero_denominator_cheaper_honesty + S_P zero_denominator_cheaper_honesty = 0 /\
  computeTheta zero_denominator_cheaper_honesty = neg_infinity /\
  P_set zero_denominator_equal_costs + S_P zero_denominator_equal_costs = 0 /\
  computeTheta zero_denominator_equal_costs = nan.
Proof. vm_compute. repeat split; reflexivity. Qed.

(** C3, amended: when [P_set + S_P] is a zero, [computeTheta] returns the
    IEEE quotient [(c_H - c_F) / 0]: NaN when [c_H - c_F] is NaN or zero;
    otherwise an infinity, with the sign of [c_H - c_F] over [+0] and the
    opposite sign over [-0]. *)
Theorem theta_zero_denominator :
  forall params : ProtocolParams,
    let n := c_H params - c_F params in
    let d := P_set params + S_P params in
    (d =? 0) = true ->
    (is_nan n || (n =? 0) = true -> computeTheta params = nan) /\
    ((0 <? n) = true ->
       (d = 0 /\ computeTheta params = infinity) \/
       (d = -0 /\ computeTheta params = neg_infinity)) /\
    ((n <? 0) = true ->
       (d = 0 /\ computeTheta params = neg_infinity) \/
       (d = -0 /\ computeTheta params = infinity)).
Proof.
  intros [sp ps ch cf cs cp ct b l pw bc ll vm]. cbn [c_H c_F P_set S_P computeTheta].
  intros Hd. apply div_by_zero, Hd.
Qed.

(** C3 at the default costs with no stake and no payment. *)
Lemma theta_zero_denominator_witness :
  computeTheta zero_denominator = infinity.
Proof.
  destruct (theta_zero_denominator zero_denominator)
    as (_ & H & _); [reflexivity|].
  destruct (H eq_refl) as [[_ E] | [E _]]; [exact E | discriminate E].
Defined.

(** C2, counterexample: with an honest cost of 500 (other fields at their
    defaults) every field is non-negative and both denominators are
    positive, yet [computeVStar] is 3.33.  It is negative, -0.03, when
    honesty is cheaper than cheating, and [computeQStar] is NaN when
    [C_safe] and [L] are both infinite. *)
Lemma equilibrium_probabilities_leave_unit :
  (nonneg_fields high_honest_cost = true /\
   (0 <? P_set high_honest_cost + S_P high_honest_cost) = true /\
   (0 <? L high_honest_cost + computeDelta high_honest_cost) = true /\
   computeVStar high_honest_cost = 3.33 /\
   in_unit (computeVStar high_honest_cost) = false) /\
  (nonneg_fields cheaper_honesty = true /\
   (0 <? P_set cheaper_honesty + S_P cheaper_honesty) = true /\
   (0 <? L cheaper_honesty + computeDelta cheaper_honesty) = true /\
   computeVStar cheaper_honesty = -0.03 /\
   in_unit (computeVStar cheaper_honesty) = false) /\
  (nonneg_fields infinite_costs = true /\
   (0 <? P_set infinite_costs + S_P infinite_costs) = true /\
   (0 <? L infinite_costs + computeDelta infinite_costs) = true /\
   computeQStar infinite_costs = nan /\
   in_unit (computeQStar infinite_costs) = false).
Proof. vm_compute. repeat split; reflexivity. Qed.

(** C2, amended: [computeQStar] is in [[0,1]] when [C_safe] is non-negative
    and finite and [L + Delta > 0]; [computeVStar] is the unclamped quotient
    [(c_H - c_F) / (P_set + S_P)], in [[0,1]] when [P_set + S_P > 0] and
    [0 <= c_H - c_F <= P_set + S_P] with [c_H - c_F] finite. *)
Theorem equilibrium_probabilities_unit :
  forall params : ProtocolParams,
    ((0 <=? C_safe params) = true -> (C_safe params <? infinity) = true ->
     (0 <? L params + computeDelta params) = true ->
     in_unit (computeQStar params) = true) /\
    computeVStar params = (c_H params - c_F params) / (P_set params + S_P params) /\
    ((0 <? P_set params + S_P params) = true ->
     (0 <=? c_H params - c_F params) = true ->
     (c_H params - c_F params <? infinity) = true ->
     (c_H params - c_F params <=? P_set params + S_P params) = true ->
     in_unit (computeVStar params) = true).
Proof.
  intros params. split; [|split].
  - intros H0 Hfin Hpos. unfold computeQStar, in_unit.
    destruct (L params + computeDelta params <=? 0) eqn:E.
    + reflexivity.
    + destruct (Math_min_one_unit (C_safe params / (L params + computeDelta params)))
        as [A B]; [now apply div_nonneg|].
      now rewrite A, B.
  - destruct params; reflexivity.
  - intros Hpos H0 Hfin Hle. unfold in_unit.
    destruct params as [sp ps ch cf cs cp ct b l pw bc ll vm].
    cbn [computeVStar computeTheta c_H c_F P_set S_P] in *.
    destruct (div_unit _ _ H0 Hle Hfin Hpos) as [A B]. now rewrite A, B.
Qed.

(** C2 at the default parameters. *)
Lemma equilibrium_probabilities_unit_witness :
  in_unit (computeQStar DEFAULT_PARAMS) = true /\ in_unit (computeVStar DEFAULT_PARAMS) = true.
Proof.
  destruct (equilibrium_probabilities_unit DEFAULT_PARAMS) as (Q & _ & V).
  split; [apply Q | apply V]; reflexivity.
Defined.

(** ** Sensitivity analysis *)

(** What the loop of [sensitivityAnalysis] has done after a run over
    [values], from any environment. *)
Lemma sensitivityLoop_spec (paramName : ParamName) (values : list float) :
  forall env : SensEnv,
    let env' := fold_left (sensStep paramName) values env in
    let at_value (f : EquilibriumValues -> float) (v : float) :=
      f (computeEquilibrium (setParam (env_baseParams env) paramName v)) in
    env_baseParams env' = env_baseParams env /\
    Sens.values (env_results env') = Sens.values (env_results env) /\
    Sens.q_star (env_results env') = Sens.q_star (env_results env) ++ map (at_value q_star) values /\
    Sens.v_star (env_results env') = Sens.v_star (env_results env) ++ map (at_value v_star) values /\
    Sens.Delta (env_results env') = Sens.Delta (env_results env) ++ map (at_value Delta) values /\
    Sens.S_P_min (env_results env') = Sens.S_P_min (env_results env) ++ map (at_value S_P_min) values.
Proof.
  induction values as [|v values IH]; intros env; cbn zeta.
  - cbn [fold_left map]. now rewrite !app_nil_r.
  - cbn [fold_left map]. specialize (IH (sensStep paramName env v)). cbn zeta in IH.
    destruct IH as (-> & -> & -> & -> & -> & ->). cbn [sensStep env_baseParams env_results
      Sens.values Sens.q_star Sens.v_star Sens.Delta Sens.S_P_min].
    now rewrite <- !app_assoc.
Qed.


(** ** Simulation engine *)



Section PeriodSeries.

Variable Math_exp : float -> float.
Variable params : ProtocolParams.
Variable nJobsPerPeriod : nat.
Variable honestFraction : float.
Variable eq : EquilibriumValues.

#[local] Abbreviation step := (periodStep Math_exp params nJobsPerPeriod honestFraction eq).

(** What one period appends to the three money series. *)
Lemma periodStep_money (t : Z) (s : SimState) :
  st_providerProfits (step t s)
    = st_providerProfits s ++ [st_cumProviderProfit (step t s)] /\
  st_clientLosses (step t s)
    = st_clientLosses s ++ [st_cumClientLoss (step t s)] /\
  st_cumulativeWelfare (step t s)
    = st_cumulativeWelfare s
      ++ [st_cumProviderProfit (step t s) - st_cumClientLoss (step t s)].
Proof. repeat split. Qed.

Lemma series_inv_init (sd : float) : series_inv 0 (initState eq sd).
Proof. unfold series_inv; cbn. repeat split; intros; lia. Qed.

Lemma periodStep_lengths (t : Z) (s : SimState) :
  length (st_periods (step t s)) = S (length (st_periods s)) /\
  length (st_fraudRates (step t s)) = S (length (st_fraudRates s)) /\
  length (st_detectionRates (step t s)) = S (length (st_detectionRates s)) /\
  length (st_auditRates (step t s)) = S (length (st_auditRates s)) /\
  length (st_reputationHistory (step t s)) = S (length (st_reputationHistory s)).
Proof.
  unfold step, periodStep.
  cbn beta iota zeta delta [st_periods st_fraudRates st_detectionRates st_auditRates
    st_reputationHistory].
  rewrite !length_app. cbn [length]. repeat split; lia.
Qed.

Lemma series_inv_step (n : nat) (t : Z) (s : SimState) :
  series_inv n s -> series_inv (S n) (step t s).
Proof.
  intros (H1 & H2 & H3 & H4 & H5 & H6 & H7 & H8 & H).
  destruct (periodStep_money t s) as (Ep & Ec & Ew).
  destruct (periodStep_lengths t s) as (L1 & L2 & L3 & L4 & L5).
  unfold series_inv. rewrite Ep, Ec, Ew, L1, L2, L3, L4, L5, !length_app. cbn [length].
  repeat (split; [lia|]).
  intros i d Hi. destruct (Nat.eq_dec i n) as [->|Hne].
  - rewrite !app_nth2 by lia. rewrite H6, H7, H8, Nat.sub_diag. reflexivity.
  - rewrite !app_nth1 by lia. apply H. lia.
Qed.

Lemma series_inv_run (n : nat) (sd : float) :
  series_inv n (for_loop step 0 n (initState eq sd)).
Proof.
  pose proof (for_loop_invariant (fun t s => (0 <= t)%Z /\ series_inv (Z.to_nat t) s) step) as H.
  destruct (H (fun t a '(conj Ht Ha) =>
                 conj (Z.le_trans _ _ _ Ht (Z.le_succ_diag_r t))
                      (eq_rect _ (fun k => series_inv k (step t a))
                         (series_inv_step _ t a Ha) _ (eq_sym (Z2Nat.inj_succ t Ht))))
              n 0%Z (initState eq sd) (conj (Z.le_refl 0) (series_inv_init sd))) as [_ R].
  now rewrite Z.add_0_l, Nat2Z.id in R.
Qed.

(** The welfare reported is the last entry of the welfare series. *)
Lemma welfare_last (n : nat) (sd : float) :
  let s := for_loop step 0 (S n) (initState eq sd) in
  forall d, nth n (st_cumulativeWelfare s) d = st_cumProviderProfit s - st_cumClientLoss s.
Proof.
  intros s d. subst s. rewrite for_loop_last.
  set (s' := for_loop step 0 n (initState eq sd)).
  destruct (periodStep_money (0 + Z.of_nat n) s') as (_ & _ & ->).
  destruct (series_inv_run n sd) as (_ & _ & _ & _ & _ & _ & _ & L & _). fold s' in L.
  rewrite app_nth2 by lia. rewrite L, Nat.sub_diag. reflexivity.
Qed.

End PeriodSeries.

(** C8: for [nPeriods >= 1] the three money series have [nPeriods] entries,
    [cumulativeWelfare[i] = providerProfits[i] - clientLosses[i]] at every
    period index [i], and [socialWelfare] is the last entry of
    [cumulativeWelfare]. *)
Theorem welfare_is_profit_minus_loss :
  forall (Math_exp : float -> float) (params : ProtocolParams)
         (nPeriods nJobsPerPeriod : nat) (honestFraction seed : float),
    (1 <= nPeriods)%nat ->
    let r := runSimulation Math_exp params nPeriods nJobsPerPeriod honestFraction seed in
    length (providerProfits r) = nPeriods /\
    length (clientLosses r) = nPeriods /\
    length (cumulativeWelfare r) = nPeriods /\
    (forall (i : nat) (d : float), (i < nPeriods)%nat ->
       nth i (cumulativeWelfare r) d
       = nth i (providerProfits r) d - nth i (clientLosses r) d) /\
    (forall d : float, socialWelfare r = nth (nPeriods - 1) (cumulativeWelfare r) d) /\
    (forall d : float, socialWelfare r = last (cumulativeWelfare r) d).
Proof.
  intros Math_exp params nPeriods nJobs hf sd Hn r. subst r. unfold runSimulation.
  set (eq := computeEquilibrium params).
  pose proof (series_inv_run Math_exp params nJobs hf eq nPeriods sd)
    as (_ & _ & _ & _ & _ & Lp & Lc & Lw & H).
  cbn [resultOf providerProfits clientLosses cumulativeWelfare socialWelfare].
  assert (Hlast : forall d, st_cumProviderProfit
             (for_loop (periodStep Math_exp params nJobs hf eq) 0 nPeriods (initState eq sd))
           - st_cumClientLoss
             (for_loop (periodStep Math_exp params nJobs hf eq) 0 nPeriods (initState eq sd))
           = nth (nPeriods - 1)
               (st_cumulativeWelfare
                  (for_loop (periodStep Math_exp params nJobs hf eq) 0 nPeriods (initState eq sd))) d).
  { intros d. destruct nPeriods as [|n]; [lia|].
    replace (S n - 1)%nat with n by lia. symmetry.
    apply (welfare_last Math_exp params nJobs hf eq n sd). }
  repeat split; trivial.
  intros d. rewrite (Hlast d).
  set (l := st_cumulativeWelfare _) in *.
  rewrite <- Lw. clear. induction l as [|a [|b l] IH]; trivial.
  replace (length (a :: b :: l) - 1)%nat with (S (length (b :: l) - 1)) by (cbn [length]; lia).
  exact IH.
Qed.

(** C8 for three periods at the defaults. *)
Lemma welfare_is_profit_minus_loss_witness :
  socialWelfare (runSimulation (fun _ => 1) DEFAULT_PARAMS 3 20 0.6 42)
  = last (cumulativeWelfare (runSimulation (fun _ => 1) DEFAULT_PARAMS 3 20 0.6 42)) 0.
Proof.
  exact (proj2 (proj2 (proj2 (proj2 (proj2
           (welfare_is_profit_minus_loss (fun _ => 1) DEFAULT_PARAMS 3 20 0.6 42
              (le_S 1 2 (le_S 1 1 (le_n 1)))))))) 0).
Defined.

Section Rates.

Variable Math_exp : float -> float.
Variable params : ProtocolParams.
Variable nJobsPerPeriod : nat.
Variable honestFraction : float.
Variable eq : EquilibriumValues.

#[local] Abbreviation step := (periodStep Math_exp params nJobsPerPeriod honestFraction eq).
#[local] Abbreviation job := (jobStep Math_exp params honestFraction eq).

Lemma jobStep_counts (a : float) (k : nat) (s : JobState) :
  counts_inv k s -> counts_inv (S k) (job a s).
Proof.
  unfold counts_inv, jobStep. intros [H1 H2]. rewrite Nat2Z.inj_succ.
  destruct (next (j_rng s)) as [u r].
  destruct (if negb (u <? honestFraction)
            then decideCheat Math_exp params eq a (j_avgReputation s) r
            else (false, r)) as [[|] r1].
  - destruct (next r1) as [u2 r2]. destruct (u2 <? _).
    + destruct (next r2) as [u3 r3]. destruct (u3 <? _); cbn; lia.
    + cbn; lia.
  - cbn; lia.
Qed.

Lemma jobs_counts (a : float) (s : JobState) :
  periodFrauds s = 0%Z -> periodDetected s = 0%Z ->
  counts_inv nJobsPerPeriod (repeat_loop (job a) nJobsPerPeriod s).
Proof.
  intros Hf Hd.
  apply (repeat_loop_invariant counts_inv (job a) (jobStep_counts a) nJobsPerPeriod 0 s).
  unfold counts_inv. lia.
Qed.

Lemma rates_inv_init (sd : float) : rates_inv params eq 0 (initState eq sd).
Proof.
  unfold rates_inv, detection_inv, initState.
  cbn [st_fraudRates st_detectionRates st_auditRates length].
  split; [lia|]. split; [reflexivity|]. split; [reflexivity|].
  split; [constructor|]. split; [|constructor].
  intros [|i] y Hy; discriminate Hy.
Qed.

Hypothesis jobs_positive : (1 <= nJobsPerPeriod)%nat.
Hypothesis jobs_exact : (Z.of_nat nJobsPerPeriod < 2 ^ 53)%Z.
Hypothesis floor_unit : in_unit (v_min params) = true.

Lemma rates_inv_step (t : Z) (s : SimState) :
  rates_inv params eq t s -> rates_inv params eq (t + 1) (step t s).
Proof.
  intros (Ht & Hlf & Hld & Hf & Hd & Ha).
  unfold rates_inv, periodStep.
  cbn beta iota zeta delta [st_fraudRates st_detectionRates st_auditRates].
  set (j0 := mkJob _ _ _ _ _ _ _ _ _ _).
  pose proof (jobs_counts (st_adaptiveAuditProb s) j0 eq_refl eq_refl) as [[C1 C2] C3].
  set (j := repeat_loop _ _ j0) in *.
  set (fr := st_fraudRates s) in *. set (dr := st_detectionRates s) in *.
  split; [lia|]. rewrite !length_app, Hlf, Hld. cbn [length].
  split; [lia|]. split; [lia|]. split; [|split].
  - apply Forall_app. split; [exact Hf|]. constructor; [|constructor].
    unfold in_unit. destruct (counter_ratio_unit (periodFrauds j) (Z.of_nat nJobsPerPeriod))
      as [A B]; try lia. now rewrite A, B.
  - intros i x Hx. destruct (Nat.lt_ge_cases i (length dr)) as [Hi|Hi].
    + (* an earlier period *)
      rewrite nth_error_app1 in Hx by exact Hi.
      destruct (Hd i x Hx) as [U|[E Z0]]; [now left|right]. split; [exact E|].
      rewrite firstn_app. replace (S i - length fr)%nat with 0%nat by lia.
      cbn [firstn]. now rewrite app_nil_r.
    + (* the period just completed *)
      rewrite nth_error_app2 in Hx by exact Hi.
      destruct (i - length dr)%nat as [|k] eqn:Ek; [|destruct k; discriminate Hx].
      assert (i = length dr) by lia. subst i. injection Hx as <-.
      destruct (0 <? periodFrauds j)%Z eqn:E.
      { left. apply Z.ltb_lt in E. unfold in_unit.
        destruct (counter_ratio_unit (periodDetected j) (periodFrauds j)) as [A B]; try lia.
        now rewrite A, B. }
      apply Z.ltb_ge in E. assert (E0 : periodFrauds j = 0%Z) by lia.
      assert (Hq : Forall (fun f => f = 0) [Z2F (periodFrauds j) / Z2F (Z.of_nat nJobsPerPeriod)]).
      { constructor; [|constructor]. rewrite E0. apply zero_div_pos, Z2F_pos. lia. }
      assert (Hfirst : forall l, (length l <= length dr)%nat ->
                firstn (S (length dr)) (l ++ [Z2F (periodFrauds j) / Z2F (Z.of_nat nJobsPerPeriod)])
                = l ++ [Z2F (periodFrauds j) / Z2F (Z.of_nat nJobsPerPeriod)]).
      { intros l Hl. apply firstn_all2. rewrite length_app. cbn [length]. lia. }
      destruct (0 <? t)%Z eqn:Et.
      * apply Z.ltb_lt in Et.
        assert (Hnth : nth_error dr (Z.to_nat (t - 1)) = Some (nth (Z.to_nat (t - 1)) dr nan))
          by (apply nth_error_nth'; lia).
        destruct (Hd _ _ Hnth) as [U|[Ev Z0]]; [now left|right]. split; [exact Ev|].
        rewrite Hfirst by lia. apply Forall_app. split; [|exact Hq].
        replace (S (Z.to_nat (t - 1))) with (length fr) in Z0 by lia.
        now rewrite firstn_all in Z0.
      * right. split; [reflexivity|]. rewrite Hfirst by lia.
        apply Z.ltb_ge in Et. assert (fr = []) by (apply length_zero_iff_nil; lia).
        subst fr. now rewrite H.
  - apply Forall_app. split; [exact Ha|]. constructor; [|constructor].
    apply clamp_unit, floor_unit.
Qed.

Lemma rates_inv_run (n : nat) (sd : float) :
  rates_inv params eq (Z.of_nat n) (for_loop step 0 n (initState eq sd)).
Proof.
  apply (for_loop_invariant (rates_inv params eq) step rates_inv_step n 0%Z).
  apply rates_inv_init.
Qed.

(** From here on [v_star] is finite and not zero, and [q_star], where
    positive, is at most one. *)
Hypothesis v_star_finite : finite_nonzero (v_star eq) = true.
Hypothesis q_star_le_one : (0 <? q_star eq) = true -> (q_star eq <=? 1) = true.

Lemma audit_inv_init (sd : float) : audit_inv params (initState eq sd).
Proof.
  unfold audit_inv, initState. cbn [st_adaptiveAuditProb st_recentFraudRates st_auditRates].
  split; [|split; constructor].
  unfold finite_nonzero in v_star_finite. now apply andb_true_iff in v_star_finite.
Qed.

Lemma pushRecent_nonneg (recent : list float) (r : float) :
  Forall (fun f => (0 <=? f) = true) recent -> (0 <=? r) = true ->
  Forall (fun f => (0 <=? f) = true) (pushRecent recent r) /\
  (1 <= length (pushRecent recent r) <= S (length recent))%nat.
Proof.
  intros H Hr. unfold pushRecent.
  assert (Hall : Forall (fun f => (0 <=? f) = true) (recent ++ [r])).
  { apply Forall_app. split; [exact H|]. now constructor. }
  assert (Hlen : length (recent ++ [r]) = S (length recent))
    by (rewrite length_app; cbn [length]; lia).
  destruct (recentWindowSize <? length (recent ++ [r]))%nat eqn:E.
  - apply Nat.ltb_lt in E. unfold recentWindowSize in E.
    destruct (recent ++ [r]) as [|x l]; [cbn in E; lia|]. cbn [tl length] in *.
    split; [now inversion Hall|lia].
  - split; [exact Hall|lia].
Qed.

Lemma audit_inv_step (t : Z) (s : SimState) :
  (length (st_recentFraudRates s) <= 5)%nat ->
  rates_inv params eq t s -> audit_inv params s ->
  audit_inv params (step t s) /\ (length (st_recentFraudRates (step t s)) <= 5)%nat.
Proof.
  intros Hwin Hr (Hfin & Hrec & Haud).
  pose proof (rates_inv_step t s Hr) as (_ & _ & _ & Hf' & _ & _).
  revert Hf'. unfold audit_inv, periodStep.
  cbn beta iota zeta delta [st_fraudRates st_adaptiveAuditProb st_recentFraudRates st_auditRates].
  set (rate := Z2F _ / Z2F _). intros Hf'.
  assert (Hrate : (0 <=? rate) = true).
  { apply Forall_app in Hf'. destruct Hf' as [_ Hl]. inversion Hl as [|x l Hx _]; subst.
    unfold in_unit in Hx. now apply andb_true_iff in Hx. }
  destruct (pushRecent_nonneg (st_recentFraudRates s) rate Hrec Hrate) as [Hrec' [Hl1 Hl2]].
  set (recent := pushRecent (st_recentFraudRates s) rate) in *.
  assert (Hwin' : (length recent <= 5)%nat).
  { subst recent. unfold pushRecent in *.
    destruct (recentWindowSize <? length (st_recentFraudRates s ++ [rate]))%nat eqn:E.
    - rewrite length_tl, length_app. cbn [length]. lia.
    - apply Nat.ltb_ge in E. unfold recentWindowSize in E. exact E. }
  assert (Hobs : (0 <=? sum recent / Z2F (Z.of_nat (length recent))) = true).
  { apply div_nonneg_finite; [now apply sum_nonneg|].
    assert (Hk : (0 < Z.of_nat (length recent) < 2 ^ 53)%Z) by lia.
    rewrite Z2F_spec by lia.
    destruct (binary_normalize_small _ Hk) as (M & -> & _). eauto. }
  assert (Hratio : (0 <=? (if gtb (q_star eq) 0
                           then sum recent / Z2F (Z.of_nat (length recent)) / q_star eq
                           else 1)) = true).
  { unfold gtb. destruct (0 <? q_star eq) eqn:Eq; [|reflexivity].
    apply div_nonneg_finite; [exact Hobs|].
    apply pos_le_one_spec; [exact Eq|now apply q_star_le_one]. }
  set (ratio := if gtb (q_star eq) 0 then _ else 1) in *.
  assert (Hupd : is_nan (st_adaptiveAuditProb s
                         + learningRate * (v_star eq * sqrt ratio - st_adaptiveAuditProb s))
                  = false).
  { apply add_not_nan; [exact Hfin|].
    apply mul_not_nan; [reflexivity|].
    apply sub_not_nan; [|exact Hfin].
    apply mul_not_nan; [exact v_star_finite|].
    apply (leb_not_nan 0), sqrt_nonneg, Hratio. }
  pose proof (clamp_bounds _ _ floor_unit Hupd) as Hc.
  split; [|exact Hwin'].
  split; [apply unit_finite, Hc|]. split; [exact Hrec'|].
  apply Forall_app. split; [exact Haud|]. now constructor.
Qed.

Lemma audit_inv_run (n : nat) (sd : float) :
  audit_inv params (for_loop step 0 n (initState eq sd)).
Proof.
  pose proof (for_loop_invariant
                (fun t s => rates_inv params eq t s /\ audit_inv params s /\
                            (length (st_recentFraudRates s) <= 5)%nat) step) as H.
  apply H.
  - intros t a (Hr & Ha & Hw). split; [|now apply audit_inv_step].
    now apply rates_inv_step.
  - split; [apply rates_inv_init|]. split; [apply audit_inv_init|cbn; lia].
Qed.

End Rates.

(** Two runs in which no job cheats (every provider is of the honest
    type), whatever [Math.exp] is. *)
Lemma rates_leave_unit_interval_eval :
  forall Math_exp : float -> float,
    detectionRates (runSimulation Math_exp high_honest_cost 3 2 1 42) = [3.33; 3.33; 3.33] /\
    auditRates (runSimulation Math_exp zero_denominator 3 2 1 42) = [nan; nan; nan].
Proof. intros Math_exp. vm_compute. split; reflexivity. Qed.




(** ** Attack evaluator *)

(** The buckets of the severity chain, with their strict lower bounds. *)
Lemma classifySeverity_buckets (w : float) :
  (classifySeverity w = critical <-> gtb w 5000 = true) /\
  (classifySeverity w = high <-> gtb w 2000 = true /\ (w <=? 5000) = true) /\
  (classifySeverity w = medium <-> gtb w 500 = true /\ (w <=? 2000) = true) /\
  (classifySeverity w = low <-> gtb w 500 = false).
Proof.
  unfold classifySeverity, gtb.
  assert (T1 : (5000 <? w) = true -> (2000 <? w) = true)
    by (apply ltb_trans; reflexivity).
  assert (T2 : (2000 <? w) = true -> (500 <? w) = true)
    by (apply ltb_trans; reflexivity).
  assert (A1 : (w <=? 5000) = true -> (5000 <? w) = false) by apply leb_ltb_false.
  assert (A2 : (w <=? 2000) = true -> (2000 <? w) = false) by apply leb_ltb_false.
  assert (B1 : (2000 <? w) = true -> (5000 <? w) = false -> (w <=? 5000) = true).
  { intros H ?. apply not_ltb_leb; trivial. apply (ltb_not_nan _ _ H). }
  assert (B2 : (500 <? w) = true -> (2000 <? w) = false -> (w <=? 2000) = true).
  { intros H ?. apply not_ltb_leb; trivial. apply (ltb_not_nan _ _ H). }
  destruct (5000 <? w) eqn:E5.
  { rewrite (T1 eq_refl), (T2 (T1 eq_refl)).
    repeat split; try discriminate; trivial; intros [_ H].
    - apply A1 in H; discriminate.
    - apply A2 in H. rewrite (T1 eq_refl) in H. discriminate. }
  destruct (2000 <? w) eqn:E2.
  { rewrite (T2 eq_refl).
    repeat split; try discriminate; auto; intros [_ H].
    apply A2 in H; discriminate. }
  destruct (500 <? w) eqn:E0.
  { repeat split; try discriminate; auto; intros [H _]; discriminate. }
  repeat split; try discriminate; auto; intros [H _]; discriminate.
Qed.

(** C9: the severity [simulateAttack] reports is a step function of its
    [welfareLoss]: critical iff above 5000, high iff above 2000 and at most
    5000, medium iff above 500 and at most 2000, low otherwise, so that 500,
    2000 and 5000 themselves fall in the lower bucket; and [attackerProfit]
    is [0.4 * welfareLoss]. *)
Theorem attack_severity_step_function :
  forall (Math_exp : float -> float) (params : ProtocolParams)
         (attackType : AttackType) (nPeriods : nat),
    let r := simulateAttack Math_exp params attackType nPeriods in
    let w := welfareLoss r in
    severity r = classifySeverity w /\
    (severity r = critical <-> gtb w 5000 = true) /\
    (severity r = high <-> gtb w 2000 = true /\ (w <=? 5000) = true) /\
    (severity r = medium <-> gtb w 500 = true /\ (w <=? 2000) = true) /\
    (severity r = low <-> gtb w 500 = false) /\
    classifySeverity 500 = low /\
    classifySeverity 2000 = medium /\
    classifySeverity 5000 = high /\
    attackerProfit r = 0.4 * w.
Proof.
  intros Math_exp params attackType nPeriods r w.
  assert (E : severity r = classifySeverity w /\ attackerProfit r = w * 0.4).
  { subst w r. unfold simulateAttack.
    destruct (attackScenario params attackType) as [[[nm ds] ap] hf]. split; reflexivity. }
  destruct E as [E1 E2]. rewrite E1, E2.
  pose proof (classifySeverity_buckets w) as (B1 & B2 & B3 & B4).
  split; [reflexivity|]. split; [exact B1|]. split; [exact B2|].
  split; [exact B3|]. split; [exact B4|].
  repeat (split; [reflexivity|]). apply mul_comm.
Qed.

